(** * borg-ncdu-analyzer: the stream-to-tree builder and the ncdu serializer

    A shallow embedding of [src/borg_ncdu_analyzer.py].

    Python [FSEntry] objects are mutable and aliased: one object is reachable
    from [_fs_cache], from [_root_objects] and from its parent's [sub] list at
    the same time, and [add_entry] mutates it in place.  The embedding keeps
    an explicit object store ([objects], a list indexed by object identity)
    and lets the three containers hold identities.  An [FSEntry] value enters
    the store when the builder first retains it (stores it in the index, the
    root list or a [sub] list); the value built on line 82 for a directory
    record that is routed to [_process_new_dir] is dropped without ever being
    retained and therefore never enters the store.

    Exceptions are modelled by the sum [exn + _].  The serializer recurses
    once per level of the tree; the nesting the interpreter allows is a
    parameter ([limit]), and going deeper raises [RecursionError]. *)

From stdpp Require Import gmap strings list fin_maps relations.
From Stdlib Require Import ZArith Lia Ascii.

(** ** Python values produced by [json.loads] and consumed by [json.dump] *)

(** Numbers are the integers borg emits; a dict is kept in insertion order. *)
#[local] Set Warnings "-register-all,-clear-no-such-hyp".
Inductive json : Type :=
  | JNull
  | JBool (b : bool)
  | JNum (z : Z)
  | JStr (s : string)
  | JArr (l : list json)
  | JObj (l : list (string * json)).

Inductive exn : Type :=
  | JSONDecodeError
  | KeyError (k : string)
  | TypeError
  | RecursionError.

Definition result (A : Type) : Type := exn + A.

Definition ok {A} (a : A) : result A := inr a.
Definition raise {A} (e : exn) : result A := inl e.

Definition bind {A B} (m : result A) (f : A → result B) : result B :=
  match m with
  | inl e => inl e
  | inr a => f a
  end.

Notation "'let*' x := m 'in' k" := (bind m (fun x => k))
  (at level 10, x name, m at level 100, k at level 200).

(** [d[k]] on a dict in insertion order. *)
Fixpoint dict_get (k : string) (d : list (string * json)) : option json :=
  match d with
  | [] => None
  | (k', v) :: d' => if String.eqb k k' then Some v else dict_get k d'
  end.

(** [record[k]] for a string key [k]: only a dict can be subscripted by a
    string; a missing key raises [KeyError]. *)
Definition getitem (record : json) (k : string) : result json :=
  match record with
  | JObj d =>
      match dict_get k d with
      | Some v => ok v
      | None => raise (KeyError k)
      end
  | _ => raise TypeError
  end.

(** [v == s] for a string literal [s]. *)
Definition eq_str (v : json) (s : string) : bool :=
  match v with
  | JStr t => String.eqb t s
  | _ => false
  end.

(** ** String helpers: [str.split('/')], ['/'.join], [os.path] *)

Definition slash : Ascii.ascii := "/"%char.

Definition is_slash (c : Ascii.ascii) : bool := Ascii.eqb c slash.

(** [path.split('/')]: never empty, [''.split('/') = ['']]. *)
Fixpoint split (s : string) : list string :=
  match s with
  | EmptyString => [EmptyString]
  | String c s' =>
      if is_slash c then EmptyString :: split s'
      else match split s' with
           | h :: t => String c h :: t
           | [] => [String c EmptyString]
           end
  end.

(** ['/'.join(p)]. *)
Fixpoint join (p : list string) : string :=
  match p with
  | [] => EmptyString
  | [x] => x
  | x :: p' => x +:+ String slash (join p')
  end.

(** [p.rfind('/') + 1]: the position just after the last slash, [0] when
    there is none. *)
Fixpoint rfind1 (s : string) : nat :=
  match s with
  | EmptyString => 0
  | String c s' =>
      match rfind1 s' with
      | 0 => if is_slash c then 1 else 0
      | S r => S (S r)
      end
  end.

Fixpoint str_take (n : nat) (s : string) : string :=
  match n, s with
  | S n', String c s' => String c (str_take n' s')
  | _, _ => EmptyString
  end.

Fixpoint str_drop (n : nat) (s : string) : string :=
  match n, s with
  | S n', String _ s' => str_drop n' s'
  | _, _ => s
  end.

(** [s.rstrip('/')]. *)
Fixpoint rstrip (s : string) : string :=
  match s with
  | EmptyString => EmptyString
  | String c s' =>
      match rstrip s' with
      | EmptyString => if is_slash c then EmptyString else String c EmptyString
      | r => String c r
      end
  end.

Fixpoint all_slashes (s : string) : bool :=
  match s with
  | EmptyString => true
  | String c s' => is_slash c && all_slashes s'
  end.

(** [os.path.basename] (posixpath): [p[p.rfind('/') + 1:]]. *)
Definition basename (p : string) : string := str_drop (rfind1 p) p.

(** [os.path.dirname] (posixpath): the head [p[:p.rfind('/') + 1]], with its
    trailing slashes stripped unless it consists of slashes only. *)
Definition dirname (p : string) : string :=
  let head := str_take (rfind1 p) p in
  if negb (String.eqb head EmptyString) && negb (all_slashes head)
  then rstrip head
  else head.

(** [iterate_path_parts]: for [i] in [range(len(p))], the pair
    ['/'.join(p[:i]), '/'.join(p[:i + 1])]. *)
Definition iterate_path_parts (path : string) : list (string * string) :=
  let p := split path in
  (λ i, (join (take i p), join (take (i + 1) p))) <$> seq 0 (length p).

(** ** The tree node model *)

Record FSEntry : Type := mkFSEntry {
  name : string;
  size : json;
  sub : list nat
}.

(** [FSEntry.from_filename(path, size)]. *)
Definition from_filename (path : string) (sz : json) : FSEntry :=
  {| name := basename path; size := sz; sub := [] |}.

(** ** The builder *)

Record BorgAnalyzer : Type := mkBorgAnalyzer {
  full_path : bool;
  objects : list FSEntry;
  _root_objects : list nat;
  _fs_cache : gmap string nat
}.

(** [BorgAnalyzer(full_path)]. *)
Definition init (fp : bool) : BorgAnalyzer :=
  {| full_path := fp; objects := []; _root_objects := []; _fs_cache := ∅ |}.

(** The builder retains a fresh entry: it receives the next identity. *)
Definition alloc (e : FSEntry) (a : BorgAnalyzer) : nat * BorgAnalyzer :=
  (length (objects a),
   {| full_path := full_path a; objects := objects a ++ [e];
      _root_objects := _root_objects a; _fs_cache := _fs_cache a |}).

(** [self._fs_cache[k] = entry]. *)
Definition cache_set (k : string) (e : nat) (a : BorgAnalyzer) : BorgAnalyzer :=
  {| full_path := full_path a; objects := objects a;
     _root_objects := _root_objects a; _fs_cache := <[k := e]> (_fs_cache a) |}.

(** [self._root_objects.append(entry)]. *)
Definition root_append (e : nat) (a : BorgAnalyzer) : BorgAnalyzer :=
  {| full_path := full_path a; objects := objects a;
     _root_objects := _root_objects a ++ [e]; _fs_cache := _fs_cache a |}.

Definition push_sub (e : nat) (o : FSEntry) : FSEntry :=
  {| name := name o; size := size o; sub := sub o ++ [e] |}.

(** [parent.add_entry(entry)] on the object with identity [p]. *)
Definition add_entry (p e : nat) (a : BorgAnalyzer) : BorgAnalyzer :=
  {| full_path := full_path a; objects := alter (push_sub e) p (objects a);
     _root_objects := _root_objects a; _fs_cache := _fs_cache a |}.

(** [self._fs_cache[k]], raising [KeyError] on a missing key. *)
Definition cache_get (k : string) (a : BorgAnalyzer) : result nat :=
  match _fs_cache a !! k with
  | Some e => ok e
  | None => raise (KeyError k)
  end.

(** One iteration of the loop of [_process_new_dir_full_path]. *)
Definition full_path_step (a : BorgAnalyzer) (pp : string * string)
  : result BorgAnalyzer :=
  let '(parent_path, part_path) := pp in
  match _fs_cache a !! part_path with
  | Some _ => ok a
  | None =>
      let '(entry, a) := alloc (from_filename part_path (JNum 0)) a in
      let a := cache_set part_path entry a in
      if String.eqb parent_path "" then ok (root_append entry a)
      else
        let* parent := cache_get parent_path a in
        ok (add_entry parent entry a)
  end.

Fixpoint for_each {X} (f : BorgAnalyzer → X → result BorgAnalyzer)
    (xs : list X) (a : BorgAnalyzer) : result BorgAnalyzer :=
  match xs with
  | [] => ok a
  | x :: xs' => let* a' := f a x in for_each f xs' a'
  end.

Definition _process_new_dir_full_path (path : string) (a : BorgAnalyzer)
  : result BorgAnalyzer :=
  for_each full_path_step (iterate_path_parts path) a.

Definition _process_new_dir_dataset (path : string) (a : BorgAnalyzer)
  : result BorgAnalyzer :=
  let '(entry, a) := alloc (from_filename path (JNum 0)) a in
  let a := cache_set path entry a in
  ok (root_append entry a).

(** [self._process_new_dir], bound once by the constructor. *)
Definition _process_new_dir (path : string) (a : BorgAnalyzer)
  : result BorgAnalyzer :=
  if full_path a then _process_new_dir_full_path path a
  else _process_new_dir_dataset path a.

(** The argument of [os.path.basename] and [os.path.dirname] must be a
    [str]. *)
Definition as_str (v : json) : result string :=
  match v with
  | JStr s => ok s
  | _ => raise TypeError
  end.

(** The body of the loop of [process_lines], after [json.loads]. *)
Definition process_record (record : json) (a : BorgAnalyzer)
  : result BorgAnalyzer :=
  let* path := getitem record "path" in
  let* ty := getitem record "type" in
  let is_dir := eq_str ty "d" in
  if eq_str path "." then ok a
  else
    let* sz := getitem record "size" in
    let* path := as_str path in
    let entry := from_filename path sz in
    let parent_dir := dirname path in
    if is_dir then
      match _fs_cache a !! parent_dir with
      | Some parent =>
          let '(entry, a) := alloc entry a in
          let a := add_entry parent entry a in
          ok (cache_set path entry a)
      | None => _process_new_dir path a
      end
    else
      if String.eqb parent_dir "" then
        let '(entry, a) := alloc entry a in
        let a := cache_set path entry a in
        ok (root_append entry a)
      else
        let* parent := cache_get parent_dir a in
        let '(entry, a) := alloc entry a in
        ok (add_entry parent entry a).

(** ** The serializer *)

(** A list comprehension [[f(y) for y in ys]]: left to right, the first
    exception escapes. *)
Fixpoint comprehension {A B} (f : A → result B) (ys : list A)
  : result (list B) :=
  match ys with
  | [] => ok []
  | y :: ys' =>
      let* v := f y in
      let* vs := comprehension f ys' in
      ok (v :: vs)
  end.

(** [entry_to_ncdu].  The source is plain recursion, one nested call per
    level of the tree, and the interpreter raises [RecursionError] when the
    calls nest deeper than it allows; [depth] is the number of nested calls
    of [entry_to_ncdu] still allowed.  (An identity always denotes an object
    in Python; the branch for an identity outside the store only keeps the
    function total.) *)
Fixpoint entry_to_ncdu (depth : nat) (objs : list FSEntry) (e : nat)
  : result json :=
  match depth with
  | 0 => raise RecursionError
  | S depth' =>
      match objs !! e with
      | None => raise RecursionError
      | Some entry =>
          match sub entry with
          | [] => ok (JObj [("name", JStr (name entry)); ("dsize", size entry)])
          | _ =>
              let* ys := comprehension (entry_to_ncdu depth' objs) (sub entry) in
              ok (JArr (JObj [("name", JStr (name entry))] :: ys))
          end
      end
  end.

(** [generate_ncdu_tree]; [limit] is the nesting of [entry_to_ncdu] calls
    the interpreter allows at this point: what [sys.getrecursionlimit()]
    leaves after the frames already in use, counted in levels of the
    tree. *)
Definition generate_ncdu_tree (limit : nat) (a : BorgAnalyzer) : result json :=
  let* xs := comprehension (entry_to_ncdu limit (objects a)) (_root_objects a) in
  ok (JArr [JNum 1; JNum 1; JObj []; JArr (JObj [("name", JStr "/")] :: xs)]).

Section WithDecoder.

(** [json.loads]: [None] stands for [JSONDecodeError]. *)
Variable json_loads : string → option json.

(** The nesting of [entry_to_ncdu] calls the interpreter allows. *)
Variable limit : nat.

(** [process_lines] over the iterator [lines]; on an exception the lines
    not yet pulled from the iterator are returned with it. *)
Fixpoint process_lines (lines : list string) (a : BorgAnalyzer)
  : (exn * list string) + BorgAnalyzer :=
  match lines with
  | [] => inr a
  | line :: rest =>
      match json_loads line with
      | None => inl (JSONDecodeError, rest)
      | Some record =>
          match process_record record a with
          | inl e => inl (e, rest)
          | inr a' => process_lines rest a'
          end
      end
  end.

(** [BorgAnalyzer.analyze]. *)
Definition analyze (lines : list string) (fp : bool) : result json :=
  match process_lines lines (init fp) with
  | inl (e, _) => raise e
  | inr analyzer => generate_ncdu_tree limit analyzer
  end.

End WithDecoder.

(** ** Notions used by the statements *)

(** Every place where an entry is attached: the root list, then all [sub]
    lists. *)
Definition attachments (a : BorgAnalyzer) : list nat :=
  _root_objects a ++ concat (sub <$> objects a).

(** [e] occurs in the children sequence of [p]. *)
Definition child_of (a : BorgAnalyzer) (p e : nat) : Prop :=
  ∃ o, objects a !! p = Some o ∧ e ∈ sub o.

(** Children are younger than their parent and live in the store. *)
Definition forest (objs : list FSEntry) : Prop :=
  ∀ p o e, objs !! p = Some o → e ∈ sub o → p < e ∧ e < length objs.

(** The subtree at [e] is at most [d] levels deep. *)
Inductive fits (objs : list FSEntry) : nat → nat → Prop :=
  | fits_entry d e o :
      objs !! e = Some o →
      (∀ c, c ∈ sub o → fits objs d c) →
      fits objs (S d) e.

(** The shape of the builder's data: the index points into the store, every
    entry is attached exactly once, and the children relation is a forest. *)
Record store_ok (a : BorgAnalyzer) : Prop := mk_store_ok {
  ok_cache : ∀ k e, _fs_cache a !! k = Some e → e < length (objects a);
  ok_nodup : NoDup (attachments a);
  ok_all : ∀ e, e < length (objects a) → e ∈ attachments a;
  ok_bound : ∀ e, e ∈ attachments a → e < length (objects a);
  ok_forest : forest (objects a)
}.

(** [a'] is a later state of [a]: the mode is the same, the root list has
    only been appended to, and every entry of [a] is still there with its
    name and size, its children only appended to. *)
Definition extends (a a' : BorgAnalyzer) : Prop :=
  full_path a' = full_path a
  ∧ (∃ tail, _root_objects a' = _root_objects a ++ tail)
  ∧ ∀ e o, objects a !! e = Some o →
      ∃ o', objects a' !! e = Some o' ∧ name o' = name o ∧ size o' = size o
            ∧ ∃ more, sub o' = sub o ++ more.

Definition starts_with_slash (s : string) : bool :=
  match s with
  | String c _ => is_slash c
  | EmptyString => false
  end.

(** The prefixes [_process_new_dir_full_path] walks through. *)
Definition path_prefixes (path : string) : list string :=
  snd <$> iterate_path_parts path.

(** What a run of ancestor synthesis over the prefixes [keys] may change
    between [a] and [a']: indexed paths keep their entry, exactly the
    missing prefixes get a fresh entry of size 0 each, nothing else moves. *)
Definition synth_post (a a' : BorgAnalyzer) (keys : list string) : Prop :=
  extends a a'
  ∧ (store_ok a → store_ok a')
  ∧ (∀ k e, _fs_cache a !! k = Some e → _fs_cache a' !! k = Some e)
  ∧ (∀ k, is_Some (_fs_cache a' !! k) ↔ is_Some (_fs_cache a !! k) ∨ k ∈ keys)
  ∧ (∀ k e, _fs_cache a !! k = None → _fs_cache a' !! k = Some e →
       length (objects a) ≤ e)
  ∧ (∀ e o, length (objects a) ≤ e → objects a' !! e = Some o →
       size o = JNum 0)
  ∧ length (objects a')
    = length (objects a) + length (filter (λ k, _fs_cache a !! k = None) keys).

(** ** Sample input lines *)

Definition dq : string := String (ascii_of_nat 34) EmptyString.

Definition quoted (s : string) : string := dq +:+ s +:+ dq.

(** The text of one line of [borg list --json-lines], with the size given
    by its digits. *)
Definition record_line (path ty sz : string) : string :=
  "{" +:+ quoted "path" +:+ ":" +:+ quoted path +:+ ","
      +:+ quoted "type" +:+ ":" +:+ quoted ty +:+ ","
      +:+ quoted "size" +:+ ":" +:+ sz +:+ "}".

(** The dict [json.loads] returns for such a line. *)
Definition mk_record (path ty : string) (sz : Z) : json :=
  JObj [("path", JStr path); ("type", JStr ty); ("size", JNum sz)].

(** [json.loads] restricted to the lines used as concrete inputs below; a
    line outside the table is not valid JSON for this decoder. *)
Definition sample_table : list (string * json) :=
  [ (record_line "a.txt" "f" "42", mk_record "a.txt" "f" 42);
    (record_line "x/y/z.txt" "f" "5", mk_record "x/y/z.txt" "f" 5);
    (record_line "x/y" "d" "0", mk_record "x/y" "d" 0);
    (record_line "a" "d" "0", mk_record "a" "d" 0);
    (record_line "a/b" "d" "0", mk_record "a/b" "d" 0);
    (record_line "a/b" "d" "4096", mk_record "a/b" "d" 4096);
    (record_line "a/b/c" "d" "0", mk_record "a/b/c" "d" 0);
    (record_line "data1" "d" "0", mk_record "data1" "d" 0);
    (record_line "data2" "d" "0", mk_record "data2" "d" 0);
    (record_line "data1/f" "f" "7", mk_record "data1/f" "f" 7);
    (record_line "/a" "d" "0", mk_record "/a" "d" 0);
    (record_line "b" "d" "0", mk_record "b" "d" 0);
    (record_line "." "d" "0", mk_record "." "d" 0) ].

Definition sample_loads (line : string) : option json :=
  dict_get line sample_table.

(** The builder after the directory record a, in full-path mode. *)
Definition sample_indexed : BorgAnalyzer :=
  {| full_path := true;
     objects := [ {| name := "a"; size := JNum 0; sub := [] |} ];
     _root_objects := [0];
     _fs_cache := <["a" := 0]> ∅ |}.

(** A recursion depth for the concrete inputs; the interpreter's default
    limit of 1000 frames allows no more nested calls than this. *)
Definition sample_limit : nat := 1000.



(** ** Reading the listing process *)

(** [read_lines_from_process]: [reads] lists what the successive calls of
    [p.stdout.readline()] return; the generator yields them until the first
    empty one, which is how [readline] signals the end of the stream. *)
Fixpoint read_lines_from_process (reads : list string) : list string :=
  match reads with
  | [] => []
  | line :: rest =>
      if String.eqb line "" then [] else line :: read_lines_from_process rest
  end.

(** ** Notions used by the further properties *)

Fixpoint no_slash (s : string) : bool :=
  match s with
  | EmptyString => true
  | String c s' => negb (is_slash c) && no_slash s'
  end.

(** One retention: a fresh childless entry named after the last component
    of a key [k] among [K] enters the store and is attached exactly once,
    either to the root list (and indexed under [k]) or as the last child of
    an entry that the index currently holds (and indexed under [k] or
    not). *)
Inductive retains (K : string → Prop) (a : BorgAnalyzer) : BorgAnalyzer → Prop :=
  | retains_root k sz :
      K k →
      retains K a (root_append (length (objects a))
                     (cache_set k (length (objects a))
                        (alloc (from_filename k sz) a).2))
  | retains_child k sz q p :
      K k → _fs_cache a !! q = Some p →
      retains K a (cache_set k (length (objects a))
                     (add_entry p (length (objects a))
                        (alloc (from_filename k sz) a).2))
  | retains_leaf k sz q p :
      K k → _fs_cache a !! q = Some p →
      retains K a (add_entry p (length (objects a))
                     (alloc (from_filename k sz) a).2).

(** The keys the records of [lines] can create entries for: the prefixes
    of their paths. *)
Definition announced (json_loads : string → option json) (lines : list string)
    (k : string) : Prop :=
  ∃ line record path,
    line ∈ lines ∧ json_loads line = Some record
    ∧ getitem record "path" = ok (JStr path) ∧ k ∈ path_prefixes path.

(** A top-level file given by its name and size: the entry the builder
    keeps for it and the node the serializer emits for it. *)
Definition file_entry (f : string * json) : FSEntry :=
  {| name := f.1; size := f.2; sub := [] |}.

Definition file_node (f : string * json) : json :=
  JObj [("name", JStr f.1); ("dsize", f.2)].

(** The decoded record is a file record for [f]: a dict with path [f.1],
    any type other than 'd' and size [f.2], whatever else it holds. *)
Definition file_record_of (f : string * json) (record : json) : Prop :=
  getitem record "path" = ok (JStr f.1)
  ∧ (∃ ty, getitem record "type" = ok ty ∧ eq_str ty "d" = false)
  ∧ getitem record "size" = ok f.2.

(** The index names every entry it holds by the last component of its key. *)
Definition index_named (a : BorgAnalyzer) : Prop :=
  ∀ k e o, _fs_cache a !! k = Some e → objects a !! e = Some o →
    name o = basename k.

(** ** Strings and path prefixes *)

Example split_examples :
  split "x/y/z.txt" = ["x"; "y"; "z.txt"] ∧ split "" = [""]
  ∧ split "/a" = [""; "a"] ∧ split "a//b" = ["a"; ""; "b"].
Proof. repeat split. Qed.

Example os_path_examples :
  basename "x/y/z.txt" = "z.txt" ∧ dirname "x/y/z.txt" = "x/y"
  ∧ basename "data1" = "data1" ∧ dirname "data1" = ""
  ∧ dirname "/a" = "/" ∧ dirname "a//b" = "a" ∧ dirname "/a/b" = "/a".
Proof. repeat split. Qed.

Example iterate_path_parts_example :
  iterate_path_parts "x/y/z.txt"
  = [("", "x"); ("x", "x/y"); ("x/y", "x/y/z.txt")].
Proof. reflexivity. Qed.

Lemma is_slash_true c : is_slash c = true → c = slash.
Proof. unfold is_slash. apply Ascii.eqb_eq. Qed.

Lemma split_not_nil s : split s ≠ [].
Proof.
  destruct s as [|c s]; simpl; [done|].
  destruct (is_slash c); [done|]. by destruct (split s).
Qed.

Lemma join_cons_cons x y p : join (x :: y :: p) = x +:+ String slash (join (y :: p)).
Proof. done. Qed.

Lemma join_split s : join (split s) = s.
Proof.
  induction s as [|c s IH]; [done|]. simpl.
  pose proof (split_not_nil s) as Hne.
  destruct (is_slash c) eqn:Hc.
  - apply is_slash_true in Hc as ->.
    destruct (split s) as [|h t]; [done|].
    rewrite join_cons_cons. simpl. by rewrite <- IH.
  - destruct (split s) as [|h t]; [done|].
    destruct t as [|h' t]; simpl in *; by rewrite <- IH.
Qed.

Lemma app_String c s t : String c s +:+ t = String c (s +:+ t).
Proof. reflexivity. Qed.

Lemma app_Empty t : EmptyString +:+ t = t.
Proof. reflexivity. Qed.

Lemma string_app_assoc s t u : s +:+ (t +:+ u) = (s +:+ t) +:+ u.
Proof.
  induction s as [|c s IH]; [by rewrite !app_Empty|].
  by rewrite !app_String, IH.
Qed.

Lemma join_snoc l x : l ≠ [] → join (l ++ [x]) = join l +:+ String slash x.
Proof.
  induction l as [|y l IH]; [done|]. intros _.
  destruct l as [|z l]; [done|].
  change ((y :: z :: l) ++ [x]) with (y :: (z :: l ++ [x])).
  rewrite !join_cons_cons.
  change (z :: l ++ [x]) with ((z :: l) ++ [x]).
  rewrite IH by done.
  by rewrite <- string_app_assoc, app_String.
Qed.

Lemma string_app_length s t :
  String.length (s +:+ t) = String.length s + String.length t.
Proof.
  induction s as [|c s IH]; [by rewrite app_Empty|].
  rewrite app_String. simpl. by rewrite IH.
Qed.

(** The prefixes of a path grow strictly, so they are pairwise distinct. *)
Lemma join_take_length_lt (p : list string) i j :
  i < j → j < length p →
  String.length (join (take (i + 1) p)) < String.length (join (take (j + 1) p)).
Proof.
  intros Hij Hj. induction j as [|j IH]; [lia|].
  assert (String.length (join (take (j + 1) p))
          < String.length (join (take (S j + 1) p))) as Hstep.
  { destruct (lookup_lt_is_Some_2 p (j + 1)) as [x Hx]; [lia|].
    replace (S j + 1) with (S (j + 1)) by lia.
    rewrite (take_S_r _ _ _ Hx), join_snoc.
    - rewrite string_app_length. simpl. lia.
    - destruct p; [simpl in Hj; lia|]. by rewrite Nat.add_1_r. }
  destruct (decide (i = j)) as [->|]; [done|].
  etrans; [apply IH; lia|done].
Qed.

Lemma join_take_ne (p : list string) i j :
  i < j → j < length p → join (take (i + 1) p) ≠ join (take (j + 1) p).
Proof.
  intros Hij Hj Heq. pose proof (join_take_length_lt p i j Hij Hj) as Hlt.
  rewrite Heq in Hlt. lia.
Qed.

Lemma split_head_nonempty s :
  s ≠ EmptyString → starts_with_slash s = false →
  ∃ h t, split s = h :: t ∧ h ≠ EmptyString.
Proof.
  destruct s as [|c s]; [done|]. simpl. intros _ ->.
  destruct (split s) as [|h t]; eauto.
Qed.

Lemma join_head_nonempty h t : h ≠ EmptyString → join (h :: t) ≠ EmptyString.
Proof. destruct h; [done|]. by destruct t. Qed.

Lemma path_in_prefixes path : path ∈ path_prefixes path.
Proof.
  unfold path_prefixes, iterate_path_parts.
  pose proof (split_not_nil path) as Hne.
  apply list_elem_of_fmap. eexists (_, _). split; [|apply list_elem_of_fmap].
  2:{ exists (length (split path) - 1). split; [reflexivity|].
      apply elem_of_seq. destruct (split path); [done|]. simpl. lia. }
  simpl. replace (length (split path) - 1 + 1) with (length (split path)).
  - by rewrite firstn_all, join_split.
  - destruct (split path); [done|]. simpl. lia.
Qed.

Lemma prefixes_nonempty path k :
  path ≠ EmptyString → starts_with_slash path = false →
  k ∈ path_prefixes path → k ≠ EmptyString.
Proof.
  intros Hne Hsl Hk.
  destruct (split_head_nonempty path Hne Hsl) as (h & t & Hs & Hh).
  unfold path_prefixes, iterate_path_parts in Hk. rewrite Hs in Hk.
  apply list_elem_of_fmap in Hk as ([x y] & -> & Hin).
  apply list_elem_of_fmap in Hin as (i & [= -> ->] & _).
  simpl. rewrite Nat.add_1_r. simpl. by apply join_head_nonempty.
Qed.

(** ** The store under the builder's primitive updates *)

Lemma extends_refl a : extends a a.
Proof.
  split; [done|]. split; [exists []; by rewrite app_nil_r|].
  intros e o Ho. exists o. repeat split; [done|]. exists []. by rewrite app_nil_r.
Qed.

Lemma extends_trans a b c : extends a b → extends b c → extends a c.
Proof.
  intros (Hm1 & [t1 Hr1] & Ho1) (Hm2 & [t2 Hr2] & Ho2).
  split; [congruence|]. split.
  - exists (t1 ++ t2). by rewrite Hr2, Hr1, app_assoc.
  - intros e o Ho. destruct (Ho1 e o Ho) as (o1 & H1 & Hn1 & Hs1 & m1 & Hc1).
    destruct (Ho2 e o1 H1) as (o2 & H2 & Hn2 & Hs2 & m2 & Hc2).
    exists o2. repeat split; [done|congruence|congruence|].
    exists (m1 ++ m2). by rewrite Hc2, Hc1, app_assoc.
Qed.

Lemma extends_alloc o a : extends a (alloc o a).2.
Proof.
  split; [done|]. split; [exists []; simpl; by rewrite app_nil_r|].
  intros e o' Ho. exists o'. simpl. split; [by apply lookup_app_l_Some|].
  repeat split. exists []. by rewrite app_nil_r.
Qed.

Lemma extends_cache_set k e a : extends a (cache_set k e a).
Proof.
  split; [done|]. split; [exists []; simpl; by rewrite app_nil_r|].
  intros i o Ho. exists o. simpl. repeat split; [done|].
  exists []. by rewrite app_nil_r.
Qed.

Lemma extends_root_append e a : extends a (root_append e a).
Proof.
  split; [done|]. split; [by exists [e]|].
  intros i o Ho. exists o. simpl. repeat split; [done|].
  exists []. by rewrite app_nil_r.
Qed.

Lemma extends_add_entry p e a : extends a (add_entry p e a).
Proof.
  split; [done|]. split; [exists []; simpl; by rewrite app_nil_r|].
  intros i o Ho. simpl. destruct (decide (p = i)) as [->|Hne].
  - exists (push_sub e o). rewrite list_lookup_alter_eq, Ho.
    repeat split. by exists [e].
  - exists o. rewrite list_lookup_alter_ne by done. repeat split; [done|].
    exists []. by rewrite app_nil_r.
Qed.

Lemma concat_sub_alter (l : list FSEntry) p e :
  p < length l →
  concat (sub <$> alter (push_sub e) p l) ≡ₚ e :: concat (sub <$> l).
Proof.
  revert p. induction l as [|o l IH]; intros p Hp; [simpl in Hp; lia|].
  destruct p as [|p].
  - change (alter (push_sub e) 0 (o :: l)) with (push_sub e o :: l).
    rewrite !fmap_cons. cbn [concat push_sub sub].
    rewrite <- app_assoc. cbn [app]. by rewrite <- Permutation_middle.
  - change (alter (push_sub e) (S p) (o :: l))
      with (o :: alter (push_sub e) p l).
    rewrite !fmap_cons. cbn [concat].
    rewrite IH by (simpl in Hp; lia). by rewrite <- Permutation_middle.
Qed.

Lemma concat_sub_snoc (l : list FSEntry) o :
  sub o = [] → concat (sub <$> (l ++ [o])) = concat (sub <$> l).
Proof.
  intros Ho. rewrite fmap_app, concat_app. simpl. by rewrite Ho, !app_nil_r.
Qed.

Lemma store_ok_init fp : store_ok (init fp).
Proof.
  split; simpl.
  - intros k e. by rewrite lookup_empty.
  - unfold attachments. simpl. constructor.
  - intros e He. lia.
  - unfold attachments. simpl. intros e He. by apply elem_of_nil in He.
  - intros p o e Hp. by rewrite lookup_nil in Hp.
Qed.

Lemma store_ok_cache_set k e a :
  store_ok a → e < length (objects a) → store_ok (cache_set k e a).
Proof.
  intros [Hc Hn Ha Hb Hf] He. split; try done. simpl.
  intros k' e'. rewrite lookup_insert. case_decide; [|by apply Hc].
  by intros [= <-].
Qed.

(** A fresh childless entry retained in the root list. *)
Lemma store_ok_root o a :
  store_ok a → sub o = [] →
  store_ok (root_append (length (objects a)) (alloc o a).2).
Proof.
  intros [Hc Hn Ha Hb Hf] Ho.
  assert (attachments (root_append (length (objects a)) (alloc o a).2)
          ≡ₚ length (objects a) :: attachments a) as Hperm.
  { unfold attachments. simpl. rewrite concat_sub_snoc by done.
    rewrite <- app_assoc. simpl. by rewrite <- Permutation_middle. }
  split.
  - simpl. intros k e Hk. rewrite length_app. simpl. apply Hc in Hk. lia.
  - rewrite Hperm. apply NoDup_cons. split; [|done].
    intros Hin. apply Hb in Hin. lia.
  - intros e He. rewrite Hperm. simpl in He. rewrite length_app in He.
    simpl in He. apply elem_of_cons.
    destruct (decide (e = length (objects a))); [by left|right].
    apply Ha. lia.
  - intros e He. rewrite Hperm in He. simpl. rewrite length_app. simpl.
    apply elem_of_cons in He as [->|He]; [lia|]. apply Hb in He. lia.
  - intros p o' e Hp He. simpl in Hp |- *. rewrite length_app. simpl.
    apply lookup_app_Some in Hp as [Hp|[_ Hp]].
    + destruct (Hf p o' e Hp He). lia.
    + apply list_lookup_singleton_Some in Hp as [_ <-].
      rewrite Ho in He. by apply elem_of_nil in He.
Qed.

(** A fresh childless entry retained as the last child of [p]. *)
Lemma store_ok_child o p a :
  store_ok a → sub o = [] → p < length (objects a) →
  store_ok (add_entry p (length (objects a)) (alloc o a).2).
Proof.
  intros [Hc Hn Ha Hb Hf] Ho Hp.
  assert (attachments (add_entry p (length (objects a)) (alloc o a).2)
          ≡ₚ length (objects a) :: attachments a) as Hperm.
  { unfold attachments. simpl. rewrite concat_sub_alter.
    - rewrite concat_sub_snoc by done. by rewrite <- Permutation_middle.
    - rewrite length_app. simpl. lia. }
  split.
  - simpl. intros k e Hk. rewrite length_alter, length_app. simpl.
    apply Hc in Hk. lia.
  - rewrite Hperm. apply NoDup_cons. split; [|done].
    intros Hin. apply Hb in Hin. lia.
  - intros e He. rewrite Hperm. simpl in He.
    rewrite length_alter, length_app in He. simpl in He. apply elem_of_cons.
    destruct (decide (e = length (objects a))); [by left|right].
    apply Ha. lia.
  - intros e He. rewrite Hperm in He. simpl.
    rewrite length_alter, length_app. simpl.
    apply elem_of_cons in He as [->|He]; [lia|]. apply Hb in He. lia.
  - intros q o' e Hq He. simpl in Hq. simpl.
    rewrite length_alter, length_app. simpl.
    destruct (decide (p = q)) as [<-|Hne].
    + rewrite list_lookup_alter_eq, lookup_app_l in Hq by done.
      destruct (objects a !! p) as [op|] eqn:Hop; [|done].
      simpl in Hq. injection Hq as <-. simpl in He.
      apply elem_of_app in He as [He|He].
      * destruct (Hf p op e Hop He). lia.
      * apply list_elem_of_singleton in He as ->. lia.
    + rewrite list_lookup_alter_ne in Hq by done.
      apply lookup_app_Some in Hq as [Hq|[_ Hq]].
      * destruct (Hf q o' e Hq He). lia.
      * apply list_lookup_singleton_Some in Hq as [_ <-].
        rewrite Ho in He. by apply elem_of_nil in He.
Qed.

(** ** Ancestor synthesis in full-path mode *)

Ltac split_post := split; [|split; [|split; [|split; [|split; [|split]]]]].

Lemma synth_post_refl a : synth_post a a [].
Proof.
  split_post.
  - apply extends_refl.
  - done.
  - done.
  - intros k. split; [by left|]. intros [?|Hin]; [done|].
    by apply elem_of_nil in Hin.
  - intros k e Hk Hk'. congruence.
  - intros e o He Ho. apply lookup_lt_Some in Ho. lia.
  - simpl. lia.
Qed.

Lemma filter_missing_ext (a a1 : BorgAnalyzer) (ks : list string) :
  (∀ k, k ∈ ks → (_fs_cache a1 !! k = None ↔ _fs_cache a !! k = None)) →
  filter (λ k, _fs_cache a1 !! k = None) ks
  = filter (λ k, _fs_cache a !! k = None) ks.
Proof.
  induction ks as [|k ks IH]; intros Hks; [done|].
  rewrite !filter_cons.
  rewrite IH by (intros k' Hk'; apply Hks; by right).
  assert (k ∈ k :: ks) as Hk by left.
  apply Hks in Hk. repeat case_decide; naive_solver.
Qed.

Lemma synth_post_trans a a1 a2 k1 k2 :
  synth_post a a1 k1 → synth_post a1 a2 k2 → (∀ k, k ∈ k2 → k ∉ k1) →
  synth_post a a2 (k1 ++ k2).
Proof.
  intros (He1 & Hs1 & Hp1 & Hd1 & Hn1 & Hz1 & Hl1)
         (He2 & Hs2 & Hp2 & Hd2 & Hn2 & Hz2 & Hl2) Hdisj.
  split_post.
  - by eapply extends_trans.
  - auto.
  - auto.
  - intros k. rewrite Hd2, Hd1, elem_of_app. tauto.
  - intros k e Hk Hk2. destruct (_fs_cache a1 !! k) as [e1|] eqn:Hk1.
    + apply Hp2 in Hk1 as Hk1'. rewrite Hk1' in Hk2. injection Hk2 as <-.
      by eapply Hn1.
    + pose proof (Hn2 k e Hk1 Hk2). lia.
  - intros e o He Ho.
    destruct (decide (length (objects a1) ≤ e)) as [Hge|Hlt].
    + by eapply Hz2.
    + destruct (lookup_lt_is_Some_2 (objects a1) e) as [o1 Ho1]; [lia|].
      destruct He2 as (_ & _ & Hobj).
      destruct (Hobj e o1 Ho1) as (o' & Ho' & _ & Hsz & _).
      rewrite Ho in Ho'. injection Ho' as <-. rewrite Hsz. by eapply Hz1.
  - rewrite Hl2, Hl1, filter_app, length_app.
    rewrite (filter_missing_ext a a1 k2); [lia|].
    intros k Hk. rewrite !eq_None_not_Some, Hd1.
    specialize (Hdisj k Hk). tauto.
Qed.

Lemma full_path_step_post a parent part :
  parent = EmptyString ∨ is_Some (_fs_cache a !! parent) →
  ∃ a', full_path_step a (parent, part) = ok a' ∧ synth_post a a' [part].
Proof.
  intros Hparent. unfold full_path_step.
  destruct (_fs_cache a !! part) as [e0|] eqn:Hpart.
  - exists a. split; [done|]. split_post.
    + apply extends_refl.
    + done.
    + done.
    + intros k. split; [by left|]. intros [?|Hin]; [done|].
      apply list_elem_of_singleton in Hin as ->. by rewrite Hpart.
    + intros k e Hk Hk'. congruence.
    + intros e o He Ho. apply lookup_lt_Some in Ho. lia.
    + rewrite filter_cons. case_decide; [congruence|]. simpl. lia.
  - set (o := from_filename part (JNum 0)).
    set (n := length (objects a)).
    assert (∃ a', (if String.eqb parent ""
                   then ok (root_append n (cache_set part n (alloc o a).2))
                   else let* p := cache_get parent (cache_set part n (alloc o a).2) in
                        ok (add_entry p n (cache_set part n (alloc o a).2)))
                  = ok a'
                ∧ extends a a' ∧ (store_ok a → store_ok a')
                ∧ _fs_cache a' = <[part := n]> (_fs_cache a)
                ∧ (∀ e o', n ≤ e → objects a' !! e = Some o' → size o' = JNum 0)
                ∧ length (objects a') = S n) as (a' & Hrun & Hext & Hok & Hc & Hz & Hl).
    { destruct (String.eqb_spec parent "") as [->|Hne].
      - eexists. split; [done|]. split; [|split; [|split; [done|split]]].
        + eapply extends_trans; [apply (extends_alloc o)|].
          eapply extends_trans; [apply extends_cache_set|apply extends_root_append].
        + intros Hs.
          change (store_ok (cache_set part n (root_append n (alloc o a).2))).
          apply store_ok_cache_set; [by apply store_ok_root|].
          simpl. rewrite length_app. simpl. unfold n. lia.
        + simpl. intros e o' He Ho'.
          apply lookup_app_Some in Ho' as [Ho'|[_ Ho']].
          * apply lookup_lt_Some in Ho'. unfold n in He. lia.
          * by apply list_lookup_singleton_Some in Ho' as [_ <-].
        + simpl. rewrite length_app. simpl. unfold n. lia.
      - destruct Hparent as [?|[p Hp]]; [done|].
        assert (parent ≠ part) as Hpp by congruence.
        unfold cache_get. simpl. rewrite lookup_insert_ne by done. rewrite Hp.
        simpl. eexists. split; [done|]. split; [|split; [|split; [done|split]]].
        + eapply extends_trans; [apply (extends_alloc o)|].
          eapply extends_trans; [apply extends_cache_set|apply extends_add_entry].
        + intros Hs.
          change (store_ok (cache_set part n (add_entry p n (alloc o a).2))).
          apply store_ok_cache_set.
          * apply store_ok_child; [done|done|]. by eapply ok_cache.
          * simpl. rewrite length_alter, length_app. simpl. unfold n. lia.
        + simpl. intros e o' He Ho'.
          rewrite list_lookup_alter in Ho'.
          assert (∃ x, (objects a ++ [o]) !! e = Some x ∧ size o' = size x)
            as (x & Hx & ->).
          { case_decide; [subst|by exists o'].
            destruct ((objects a ++ [o]) !! e) as [x|]; [|done].
            injection Ho' as <-. by exists x. }
          apply lookup_app_Some in Hx as [Hx|[_ Hx]].
          * apply lookup_lt_Some in Hx. unfold n in He. lia.
          * by apply list_lookup_singleton_Some in Hx as [_ <-].
        + simpl. rewrite length_alter, length_app. simpl. unfold n. lia. }
    exists a'. split; [exact Hrun|]. split_post.
    + done.
    + done.
    + intros k e Hk. rewrite Hc, lookup_insert_ne; [done|congruence].
    + intros k. rewrite Hc, lookup_insert, list_elem_of_singleton.
      case_decide; [subst|]; naive_solver.
    + intros k e Hk. rewrite Hc, lookup_insert. case_decide; [|congruence].
      intros [= <-]. done.
    + done.
    + rewrite Hl, filter_cons. case_decide; [|done]. simpl. unfold n. lia.
Qed.

Lemma synth_fold (p : list string) n : ∀ s a,
  s + n ≤ length p →
  s = 0 ∨ is_Some (_fs_cache a !! join (take s p)) →
  ∃ a', for_each full_path_step
          ((λ i, (join (take i p), join (take (i + 1) p))) <$> seq s n) a
        = ok a'
      ∧ synth_post a a' ((λ i, join (take (i + 1) p)) <$> seq s n).
Proof.
  induction n as [|n IH]; intros s a Hlen Hs.
  - exists a. split; [done|]. apply synth_post_refl.
  - cbn [seq fmap list_fmap for_each].
    destruct (full_path_step_post a (join (take s p)) (join (take (s + 1) p)))
      as (a1 & Hstep & Hpost1).
    { destruct Hs as [->|Hs]; [by left|by right]. }
    rewrite Hstep. cbn [bind ok].
    destruct (IH (S s) a1) as (a' & Hrun & Hpost2); [lia| |].
    { right. destruct Hpost1 as (_ & _ & _ & Hd & _). apply Hd. right.
      rewrite Nat.add_1_r. by left. }
    exists a'. split; [exact Hrun|].
    change (join (take (s + 1) p) :: ((λ i, join (take (i + 1) p)) <$> seq (S s) n))
      with ([join (take (s + 1) p)] ++ ((λ i, join (take (i + 1) p)) <$> seq (S s) n)).
    eapply synth_post_trans; [exact Hpost1|exact Hpost2|].
    intros k Hk Hin. apply list_elem_of_singleton in Hin as ->.
    apply list_elem_of_fmap in Hk as (i & Heq & Hi).
    apply elem_of_seq in Hi.
    by apply (join_take_ne p s i); [lia|lia|].
Qed.

Lemma path_prefixes_seq path :
  path_prefixes path
  = (λ i, join (take (i + 1) (split path))) <$> seq 0 (length (split path)).
Proof.
  unfold path_prefixes, iterate_path_parts. by rewrite <- list_fmap_compose.
Qed.

(** Ancestor synthesis never raises, whatever the state. *)
Lemma full_path_synthesis a path :
  ∃ a', _process_new_dir_full_path path a = ok a'
      ∧ synth_post a a' (path_prefixes path).
Proof.
  rewrite path_prefixes_seq.
  apply (synth_fold (split path)); [lia|by left].
Qed.

Lemma dataset_synthesis a path :
  ∃ a', _process_new_dir_dataset path a = ok a'
      ∧ a' = root_append (length (objects a))
               (cache_set path (length (objects a))
                  (alloc (from_filename path (JNum 0)) a).2)
      ∧ extends a a' ∧ (store_ok a → store_ok a').
Proof.
  eexists. split; [reflexivity|]. split; [reflexivity|]. split.
  - eapply extends_trans; [apply (extends_alloc (from_filename path (JNum 0)))|].
    eapply extends_trans; [apply extends_cache_set|apply extends_root_append].
  - intros Hs.
    change (store_ok (cache_set path (length (objects a))
              (root_append (length (objects a))
                 (alloc (from_filename path (JNum 0)) a).2))).
    apply store_ok_cache_set; [by apply store_ok_root|].
    simpl. rewrite length_app. simpl. lia.
Qed.

(** ** One record *)

Lemma bind_ok {A B} (m : result A) (f : A → result B) b :
  bind m f = ok b → ∃ x, m = ok x ∧ f x = ok b.
Proof. destruct m as [e|x]; [done|]. intros H. by exists x. Qed.

Lemma cache_get_ok k a p : cache_get k a = ok p → _fs_cache a !! k = Some p.
Proof. unfold cache_get. destruct (_fs_cache a !! k); [|done]. by intros [= ->]. Qed.

Lemma as_str_ok v s : as_str v = ok s → v = JStr s.
Proof. destruct v; try done. by intros [= ->]. Qed.

(** Every successful record leaves a later state of the same shape. *)
Lemma process_record_post record a a' :
  process_record record a = ok a' → extends a a' ∧ (store_ok a → store_ok a').
Proof.
  unfold process_record. intros H.
  apply bind_ok in H as (path & _ & H). apply bind_ok in H as (ty & _ & H).
  destruct (eq_str path ".").
  { injection H as <-. split; [apply extends_refl|done]. }
  apply bind_ok in H as (sz & _ & H). apply bind_ok in H as (p & _ & H).
  set (o := from_filename p sz) in *.
  destruct (eq_str ty "d").
  - destruct (_fs_cache a !! dirname p) as [parent|] eqn:Hparent.
    + injection H as <-. split.
      * eapply extends_trans; [apply (extends_alloc o)|].
        eapply extends_trans; [apply extends_add_entry|apply extends_cache_set].
      * intros Hs. apply store_ok_cache_set.
        -- apply store_ok_child; [done|done|]. by eapply ok_cache.
        -- simpl. rewrite length_alter, length_app. simpl. lia.
    + unfold _process_new_dir in H. destruct (full_path a).
      * destruct (full_path_synthesis a p) as (a'' & Hrun & He & Hs & _).
        rewrite Hrun in H. injection H as <-. done.
      * destruct (dataset_synthesis a p) as (a'' & Hrun & _ & He & Hs).
        rewrite Hrun in H. injection H as <-. done.
  - destruct (String.eqb (dirname p) "").
    + injection H as <-. split.
      * eapply extends_trans; [apply (extends_alloc o)|].
        eapply extends_trans; [apply extends_cache_set|apply extends_root_append].
      * intros Hs.
        change (store_ok (cache_set p (length (objects a))
                  (root_append (length (objects a)) (alloc o a).2))).
        apply store_ok_cache_set; [by apply store_ok_root|].
        simpl. rewrite length_app. simpl. lia.
    + apply bind_ok in H as (parent & Hparent & H). apply cache_get_ok in Hparent.
      injection H as <-. split.
      * eapply extends_trans; [apply (extends_alloc o)|apply extends_add_entry].
      * intros Hs. apply store_ok_child; [done|done|]. by eapply ok_cache.
Qed.

Lemma process_lines_inv json_loads (P : BorgAnalyzer → Prop) lines :
  ∀ a a',
  (∀ line record b b', line ∈ lines → json_loads line = Some record →
     P b → process_record record b = ok b' → P b') →
  P a → process_lines json_loads lines a = inr a' → P a'.
Proof.
  induction lines as [|line rest IH]; intros a a' Hstep Ha Hrun.
  - by injection Hrun as <-.
  - simpl in Hrun. destruct (json_loads line) as [record|] eqn:Hline; [|done].
    destruct (process_record record a) as [e|b] eqn:Hrec; [done|].
    apply (IH b a'); [|by eapply (Hstep line); [left|..]|done].
    intros l r c c' Hl. apply Hstep. by right.
Qed.

Lemma process_lines_post json_loads lines a a' :
  process_lines json_loads lines a = inr a' →
  extends a a' ∧ (store_ok a → store_ok a').
Proof.
  intros Hrun.
  apply (process_lines_inv json_loads
           (λ b, extends a b ∧ (store_ok a → store_ok b)) lines a a');
    [|split; [apply extends_refl|done]|done].
  intros line record b b' _ _ [He Hs] Hrec.
  apply process_record_post in Hrec as [He' Hs'].
  split; [by eapply extends_trans|auto].
Qed.

(** ** The tree property *)

Lemma concat_lookup_elem (ls : list (list nat)) e :
  e ∈ concat ls → ∃ i x, ls !! i = Some x ∧ e ∈ x.
Proof.
  induction ls as [|x ls IH]; simpl; intros He; [by apply elem_of_nil in He|].
  apply elem_of_app in He as [He|He].
  - by exists 0, x.
  - destruct (IH He) as (i & y & Hi & Hy). by exists (S i), y.
Qed.

Lemma elem_concat_lookup (ls : list (list nat)) i x e :
  ls !! i = Some x → e ∈ x → e ∈ concat ls.
Proof.
  revert i. induction ls as [|y ls IH]; intros i Hi He; [done|].
  simpl. apply elem_of_app. destruct i as [|i].
  - injection Hi as ->. by left.
  - right. by eapply IH.
Qed.

Lemma NoDup_concat_lookup (ls : list (list nat)) i x :
  NoDup (concat ls) → ls !! i = Some x → NoDup x.
Proof.
  revert i. induction ls as [|y ls IH]; intros i Hnd Hi; [done|].
  simpl in Hnd. apply NoDup_app in Hnd as (Hy & _ & Hls).
  destruct i as [|i]; [by injection Hi as <-|by eapply IH].
Qed.

Lemma NoDup_concat_unique (ls : list (list nat)) i j x y e :
  NoDup (concat ls) → ls !! i = Some x → ls !! j = Some y →
  e ∈ x → e ∈ y → i = j.
Proof.
  revert i j. induction ls as [|z ls IH]; intros i j Hnd Hi Hj Hx Hy; [done|].
  simpl in Hnd. apply NoDup_app in Hnd as (_ & Hdisj & Hls).
  destruct i as [|i], j as [|j]; [done| | |f_equal; by eapply IH].
  - injection Hi as ->. exfalso. eapply Hdisj; [done|].
    by eapply elem_concat_lookup.
  - injection Hj as ->. exfalso. eapply Hdisj; [done|].
    by eapply elem_concat_lookup.
Qed.

Lemma NoDup_split_once (l : list nat) e :
  NoDup l → e ∈ l → ∃ l1 l2, l = l1 ++ e :: l2 ∧ (e ∉ l1) ∧ (e ∉ l2).
Proof.
  intros Hnd He. apply list_elem_of_split in He as (l1 & l2 & ->).
  exists l1, l2. split; [done|].
  apply NoDup_app in Hnd as (_ & Hdisj & Hpost).
  apply NoDup_cons in Hpost as [Hpost _]. split; [|done].
  intros Hin. eapply Hdisj; [done|]. by left.
Qed.

Lemma child_of_lt a p e : forest (objects a) → tc (child_of a) p e → p < e.
Proof.
  intros Hf Htc. induction Htc as [p e (o & Ho & He)|p q e (o & Ho & Hq) _ IH].
  - by destruct (Hf p o e Ho He).
  - destruct (Hf p o q Ho Hq). lia.
Qed.

(** In a well-shaped store every entry outside the root list has exactly one
    parent and occurs once among its children. *)
Lemma store_ok_parent a e :
  store_ok a → e < length (objects a) → e ∉ _root_objects a →
  ∃ p o, objects a !! p = Some o ∧ p ≠ e
       ∧ (∃ l1 l2, sub o = l1 ++ e :: l2 ∧ (e ∉ l1) ∧ (e ∉ l2))
       ∧ ∀ q, child_of a q e → q = p.
Proof.
  intros [Hc Hn Ha Hb Hf] He Hroot.
  apply Ha in He. unfold attachments in He, Hn.
  apply elem_of_app in He as [He|He]; [done|].
  apply NoDup_app in Hn as (_ & _ & Hn).
  apply concat_lookup_elem in He as (p & x & Hp & Hx).
  rewrite list_lookup_fmap in Hp.
  destruct (objects a !! p) as [o|] eqn:Ho; [|done]. injection Hp as <-.
  exists p, o. split; [done|]. split; [|split].
  - destruct (Hf p o e Ho Hx). lia.
  - apply NoDup_split_once; [|done].
    apply (NoDup_concat_lookup (sub <$> objects a) p); [done|].
    by rewrite list_lookup_fmap, Ho.
  - intros q (o' & Hq & He'). symmetry.
    apply (NoDup_concat_unique (sub <$> objects a) p q (sub o) (sub o') e);
      [done| | |done|done]; rewrite list_lookup_fmap; by simplify_option_eq.
Qed.

Lemma store_ok_root_no_parent a e q :
  store_ok a → e ∈ _root_objects a → ¬ child_of a q e.
Proof.
  intros [Hc Hn Ha Hb Hf] He (o & Hq & Ho).
  unfold attachments in Hn. apply NoDup_app in Hn as (_ & Hdisj & _).
  eapply Hdisj; [done|].
  apply (elem_concat_lookup _ q (sub o)); [|done].
  by rewrite list_lookup_fmap, Hq.
Qed.

(** C5: after a successful run, in either mode, every entry of the store
    (every entry the builder retained) that is not in the root list occurs
    exactly once in the children sequence of exactly one other entry, a root
    entry is nobody's child, and the children relation has no cycle. *)
Theorem tree_property json_loads lines fp a :
  process_lines json_loads lines (init fp) = inr a →
  (∀ e, e < length (objects a) → e ∉ _root_objects a →
     ∃ p o, objects a !! p = Some o ∧ p ≠ e
          ∧ (∃ l1 l2, sub o = l1 ++ e :: l2 ∧ (e ∉ l1) ∧ (e ∉ l2))
          ∧ ∀ q, child_of a q e → q = p)
  ∧ (∀ e q, e ∈ _root_objects a → ¬ child_of a q e)
  ∧ (∀ e, ¬ tc (child_of a) e e).
Proof.
  intros Hrun. apply process_lines_post in Hrun as [_ Hok].
  specialize (Hok (store_ok_init fp)). split; [|split].
  - intros e. by apply store_ok_parent.
  - intros e q He. by apply store_ok_root_no_parent.
  - intros e Htc. apply child_of_lt in Htc; [lia|by destruct Hok].
Qed.

Lemma tree_property_witness :
  ∃ a, process_lines sample_loads
         [record_line "x/y" "d" "0"; record_line "x/y/z.txt" "f" "5"] (init true)
       = inr a
     ∧ (∀ e, e < length (objects a) → e ∉ _root_objects a →
          ∃ p o, objects a !! p = Some o ∧ p ≠ e
               ∧ (∃ l1 l2, sub o = l1 ++ e :: l2 ∧ (e ∉ l1) ∧ (e ∉ l2))
               ∧ ∀ q, child_of a q e → q = p)
     ∧ (∀ e q, e ∈ _root_objects a → ¬ child_of a q e)
     ∧ (∀ e, ¬ tc (child_of a) e e).
Proof.
  eexists. split; [reflexivity|].
  apply (tree_property sample_loads
           [record_line "x/y" "d" "0"; record_line "x/y/z.txt" "f" "5"] true).
  reflexivity.
Defined.

(** ** The serializer and the recursion depth *)

Lemma comprehension_Forall2 {A B} (f : A → result B) ys vs :
  comprehension f ys = ok vs ↔ Forall2 (λ y v, f y = ok v) ys vs.
Proof.
  revert vs. induction ys as [|y ys IH]; intros vs; simpl.
  - split; [by intros [= <-]|]. by intros ->%Forall2_nil_inv_l.
  - split.
    + intros H. apply bind_ok in H as (v & Hv & H).
      apply bind_ok in H as (vs' & Hvs & H). injection H as <-.
      constructor; [done|]. by apply IH.
    + intros (v & vs' & Hv & Hvs & ->)%Forall2_cons_inv_l.
      rewrite Hv. simpl. apply IH in Hvs. by rewrite Hvs.
Qed.

Lemma comprehension_all_ok {A B} (f : A → result B) ys :
  (∀ y, y ∈ ys → ∃ v, f y = ok v) → ∃ vs, comprehension f ys = ok vs.
Proof.
  induction ys as [|y ys IH]; intros Hys; [by exists []|].
  destruct (Hys y) as [v Hv]; [by left|].
  destruct IH as [vs Hvs]; [intros z Hz; apply Hys; by right|].
  exists (v :: vs). simpl. rewrite Hv. simpl. by rewrite Hvs.
Qed.

Lemma comprehension_raises {A B} (f : A → result B) ys x :
  comprehension f ys = raise x → ∃ y, y ∈ ys ∧ f y = raise x.
Proof.
  induction ys as [|y ys IH]; [done|]. simpl.
  destruct (f y) as [x'|v] eqn:Hy; simpl.
  - intros [= ->]. exists y. split; [by left|done].
  - destruct (comprehension f ys) as [x'|vs]; [|done]. simpl.
    intros [= ->]. destruct IH as (z & Hz & Hfz); [done|].
    exists z. split; [by right|done].
Qed.

Lemma fits_mono objs d d' e : fits objs d e → d ≤ d' → fits objs d' e.
Proof.
  revert d' e. induction d as [|d IH]; intros d' e Hfit Hle; [by inversion Hfit|].
  inversion Hfit as [? ? o Ho Hkids]; subst.
  destruct d' as [|d']; [lia|].
  apply (fits_entry objs d' e o Ho). intros c Hc. apply IH; [by apply Hkids|lia].
Qed.

(** A subtree at most [d] levels deep is serialized within [d] nested
    calls, and a larger allowance gives the same result. *)
Lemma entry_to_ncdu_fits objs d : ∀ e,
  fits objs d e →
  ∃ j, ∀ d', d ≤ d' → entry_to_ncdu d' objs e = ok j.
Proof.
  induction d as [|d IH]; intros e Hfit; [by inversion Hfit|].
  inversion Hfit as [? ? o Ho Hkids]; subst.
  assert (∃ vs, ∀ d', d ≤ d' →
            comprehension (entry_to_ncdu d' objs) (sub o) = ok vs) as [vs Hvs].
  { clear Ho Hfit. induction (sub o) as [|y ys IHys]; [by exists []|].
    destruct (IH y) as [v Hv]; [apply Hkids; by left|].
    destruct IHys as [vs Hvs]; [intros c Hc; apply Hkids; by right|].
    exists (v :: vs). intros d' Hd'. simpl.
    rewrite Hv by done. simpl. by rewrite Hvs. }
  destruct (sub o) as [|c cs] eqn:Hsub.
  - eexists. intros d' Hd'. destruct d' as [|d']; [lia|].
    simpl. by rewrite Ho, Hsub.
  - eexists. intros d' Hd'. destruct d' as [|d']; [lia|].
    simpl. rewrite Ho, Hsub, Hvs by lia. done.
Qed.

(** Conversely the serializer returns only on a subtree that fits. *)
Lemma entry_to_ncdu_ok_fits objs d : ∀ e j,
  entry_to_ncdu d objs e = ok j → fits objs d e.
Proof.
  induction d as [|d IH]; intros e j Hj; [done|]. simpl in Hj.
  destruct (objs !! e) as [o|] eqn:Ho; [|done].
  apply (fits_entry objs d e o Ho). intros c Hc.
  destruct (sub o) as [|y ys] eqn:Hsub; [by apply elem_of_nil in Hc|].
  apply bind_ok in Hj as (vs & Hvs & _).
  apply comprehension_Forall2 in Hvs.
  destruct (proj1 (list_elem_of_lookup _ _) Hc) as [i Hi].
  destruct (Forall2_lookup_l _ _ _ _ _ Hvs Hi) as (v & _ & Hv).
  by eapply IH.
Qed.

(** The serializer raises nothing but [RecursionError]. *)
Lemma entry_to_ncdu_raises objs d : ∀ e x,
  entry_to_ncdu d objs e = raise x → x = RecursionError.
Proof.
  induction d as [|d IH]; intros e x Hx; [by injection Hx|]. simpl in Hx.
  destruct (objs !! e) as [o|]; [|by injection Hx].
  destruct (sub o) as [|y ys]; [done|].
  destruct (comprehension (entry_to_ncdu d objs) (y :: ys)) as [x'|vs] eqn:Hc;
    [|done].
  injection Hx as ->. apply comprehension_raises in Hc as (c & _ & Hc).
  by eapply IH.
Qed.

(** In a forest the subtree at [e] is at most [length objs - e] deep. *)
Lemma forest_fits objs m : ∀ e,
  forest objs → e < length objs → length objs - e ≤ m → fits objs m e.
Proof.
  induction m as [|m IH]; intros e Hf He Hm; [lia|].
  destruct (lookup_lt_is_Some_2 objs e He) as [o Ho].
  apply (fits_entry objs m e o Ho). intros c Hc.
  destruct (Hf e o c Ho Hc) as [Hc1 Hc2]. apply IH; [done|done|lia].
Qed.

Lemma serialize_all objs d (es : list nat) :
  (∀ e, e ∈ es → fits objs d e) →
  ∃ vs, comprehension (entry_to_ncdu d objs) es = ok vs.
Proof.
  intros Hes. apply comprehension_all_ok. intros e He.
  destruct (entry_to_ncdu_fits objs d e (Hes e He)) as [j Hj].
  exists j. by apply Hj.
Qed.





(** The serializer returns a document on every state the builder reaches
    when the allowed depth reaches the number of entries. *)
Lemma builder_serializes json_loads limit lines fp a :
  process_lines json_loads lines (init fp) = inr a →
  length (objects a) ≤ limit →
  ∃ doc, analyze json_loads limit lines fp = ok doc.
Proof.
  intros Hrun Hlimit. unfold analyze. rewrite Hrun.
  apply process_lines_post in Hrun as [_ Hok].
  destruct (Hok (store_ok_init fp)) as [_ _ _ Hb Hf].
  destruct (serialize_all (objects a) limit (_root_objects a)) as [rs Hrs].
  { intros r Hr. apply forest_fits; [done| |lia].
    apply Hb. unfold attachments. apply elem_of_app. by left. }
  unfold generate_ncdu_tree. rewrite Hrs. by eexists.
Qed.

(** ** Runs over several lines *)

Lemma process_lines_app json_loads l1 l2 a :
  process_lines json_loads (l1 ++ l2) a
  = match process_lines json_loads l1 a with
    | inl (e, rest) => inl (e, rest ++ l2)
    | inr a' => process_lines json_loads l2 a'
    end.
Proof.
  revert a. induction l1 as [|line l1 IH]; intros a; [done|]. simpl.
  destruct (json_loads line) as [record|]; [|done].
  destruct (process_record record a) as [e|a']; [done|]. apply IH.
Qed.

(** C4: the builder followed by the serializer, on the single line that
    decodes to the file record a.txt of size 42, returns the document
    [[1, 1, {}, [{"name": "/"}, {"name": "a.txt", "dsize": 42}]]], in either
    mode, as soon as the interpreter allows the one call of [entry_to_ncdu]
    it takes. *)
Theorem single_root_file json_loads limit line fp :
  1 ≤ limit →
  json_loads line = Some (mk_record "a.txt" "f" 42) →
  analyze json_loads limit [line] fp
  = ok (JArr [JNum 1; JNum 1; JObj [];
              JArr [JObj [("name", JStr "/")];
                    JObj [("name", JStr "a.txt"); ("dsize", JNum 42)]]]).
Proof.
  intros Hlimit Hline. unfold analyze. simpl. rewrite Hline.
  destruct limit as [|d]; [lia|]. destruct fp; reflexivity.
Qed.

Lemma single_root_file_witness :
  analyze sample_loads sample_limit [record_line "a.txt" "f" "42"] true
  = ok (JArr [JNum 1; JNum 1; JObj [];
              JArr [JObj [("name", JStr "/")];
                    JObj [("name", JStr "a.txt"); ("dsize", JNum 42)]]]).
Proof.
  apply (single_root_file sample_loads sample_limit);
    [unfold sample_limit; lia|reflexivity].
Defined.

(** C7: a record whose path is "." leaves the builder untouched, whatever
    its type and size fields hold, and the document is the one obtained
    without that line. *)
Theorem root_marker_skipped json_loads limit record ty :
  getitem record "path" = ok (JStr ".") →
  getitem record "type" = ok ty →
  (∀ a, process_record record a = ok a)
  ∧ (∀ line before after fp, json_loads line = Some record →
       analyze json_loads limit (before ++ line :: after) fp
       = analyze json_loads limit (before ++ after) fp).
Proof.
  intros Hpath Hty.
  assert (∀ a, process_record record a = ok a) as Hskip.
  { intros a. unfold process_record. rewrite Hpath, Hty. done. }
  split; [done|]. intros line before after fp Hline.
  unfold analyze. rewrite !process_lines_app.
  destruct (process_lines json_loads before (init fp)) as [[e rest]|a]; [done|].
  simpl. by rewrite Hline, Hskip.
Qed.

Lemma root_marker_skipped_witness :
  (∀ a, process_record (mk_record "." "d" 0) a = ok a)
  ∧ (∀ line before after fp, sample_loads line = Some (mk_record "." "d" 0) →
       analyze sample_loads sample_limit (before ++ line :: after) fp
       = analyze sample_loads sample_limit (before ++ after) fp).
Proof.
  apply (root_marker_skipped sample_loads sample_limit (mk_record "." "d" 0)
           (JStr "d"));
    reflexivity.
Defined.

(** C9: when a line is not valid JSON the run ends in an exception and no
    document is returned; the lines after it are never pulled from the
    iterator; and when the lines before it are processed without error, the
    exception is the decoder's, raised at that very line. *)
Theorem malformed_line_halts json_loads limit before bad after fp :
  json_loads bad = None →
  (∃ e, analyze json_loads limit (before ++ bad :: after) fp = raise e)
  ∧ (∃ e rest,
       process_lines json_loads (before ++ bad :: after) (init fp) = inl (e, rest)
       ∧ after `suffix_of` rest)
  ∧ (∀ a, process_lines json_loads before (init fp) = inr a →
       process_lines json_loads (before ++ bad :: after) (init fp)
       = inl (JSONDecodeError, after)).
Proof.
  intros Hbad. unfold analyze. rewrite process_lines_app.
  destruct (process_lines json_loads before (init fp)) as [[e rest]|a].
  - split; [by exists e|]. split; [|done].
    exists e, (rest ++ bad :: after). split; [done|].
    apply suffix_app_r, suffix_cons_r. done.
  - simpl. rewrite Hbad. split; [by eexists|]. split; [|by intros ? [= <-]].
    by exists JSONDecodeError, after.
Qed.

Lemma malformed_line_halts_witness :
  (∃ e, analyze sample_loads sample_limit
          ([record_line "a" "d" "0"] ++ "not json" :: [record_line "a/b" "d" "0"])
          true = raise e)
  ∧ (∃ e rest,
       process_lines sample_loads
         ([record_line "a" "d" "0"] ++ "not json" :: [record_line "a/b" "d" "0"])
         (init true) = inl (e, rest)
       ∧ [record_line "a/b" "d" "0"] `suffix_of` rest)
  ∧ (∀ a, process_lines sample_loads [record_line "a" "d" "0"] (init true) = inr a →
       process_lines sample_loads
         ([record_line "a" "d" "0"] ++ "not json" :: [record_line "a/b" "d" "0"])
         (init true)
       = inl (JSONDecodeError, [record_line "a/b" "d" "0"])).
Proof.
  apply (malformed_line_halts sample_loads sample_limit
           [record_line "a" "d" "0"] "not json" [record_line "a/b" "d" "0"] true).
  reflexivity.
Defined.

(** ** Per-dataset mode *)

Lemma store_ok_unique_parent a p q e :
  store_ok a → child_of a p e → child_of a q e → p = q.
Proof.
  intros [Hc Hn Ha Hb Hf] (o & Hp & He) (o' & Hq & He').
  unfold attachments in Hn. apply NoDup_app in Hn as (_ & _ & Hn).
  apply (NoDup_concat_unique (sub <$> objects a) p q (sub o) (sub o') e);
    [done| | |done|done]; rewrite list_lookup_fmap; by simplify_option_eq.
Qed.

Lemma eq_str_ne s t : s ≠ t → eq_str (JStr s) t = false.
Proof. intros Hne. simpl. by apply String.eqb_neq. Qed.

(** C8: in per-dataset mode a directory record whose parent path is not
    indexed creates exactly one entry, named after the last component of
    the undecomposed path, indexes it under the full path and appends it to
    the root list; so the records data1 and data2 give two distinct root
    entries that stay the first two roots, with no child in common, whatever
    records follow. *)
Theorem per_dataset_roots :
  (∀ a record path sz,
     full_path a = false →
     getitem record "path" = ok (JStr path) → path ≠ "." →
     getitem record "type" = ok (JStr "d") →
     getitem record "size" = ok sz →
     _fs_cache a !! dirname path = None →
     process_record record a
     = ok {| full_path := false;
             objects := objects a
                        ++ [{| name := basename path; size := JNum 0; sub := [] |}];
             _root_objects := _root_objects a ++ [length (objects a)];
             _fs_cache := <[path := length (objects a)]> (_fs_cache a) |})
  ∧ (∀ json_loads l1 l2 rest s1 s2 a,
       json_loads l1 = Some (mk_record "data1" "d" s1) →
       json_loads l2 = Some (mk_record "data2" "d" s2) →
       process_lines json_loads (l1 :: l2 :: rest) (init false) = inr a →
       ∃ tail o1 o2,
         _root_objects a = 0 :: 1 :: tail
         ∧ objects a !! 0 = Some o1 ∧ name o1 = "data1"
         ∧ objects a !! 1 = Some o2 ∧ name o2 = "data2"
         ∧ ∀ e, ¬ (child_of a 0 e ∧ child_of a 1 e)).
Proof.
  split.
  - intros a record path sz Hmode Hpath Hdot Hty Hsz Hparent.
    unfold process_record. rewrite Hpath, Hty, Hsz.
    cbn [bind ok]. rewrite (eq_str_ne _ _ Hdot).
    cbn [as_str bind ok eq_str]. rewrite String.eqb_refl, Hparent.
    unfold _process_new_dir, _process_new_dir_dataset. rewrite Hmode.
    unfold root_append, cache_set, alloc, from_filename. simpl.
    by rewrite Hmode.
  - intros json_loads l1 l2 rest s1 s2 a H1 H2 Hrun.
    cbn [process_lines] in Hrun. rewrite H1 in Hrun.
    set (b1 := {| full_path := false;
                  objects := [{| name := "data1"; size := JNum 0; sub := [] |}];
                  _root_objects := [0];
                  _fs_cache := <["data1" := 0]> ∅ |}).
    set (b2 := {| full_path := false;
                  objects := [{| name := "data1"; size := JNum 0; sub := [] |};
                              {| name := "data2"; size := JNum 0; sub := [] |}];
                  _root_objects := [0; 1];
                  _fs_cache := <["data2" := 1]> (<["data1" := 0]> ∅) |}).
    assert (process_record (mk_record "data1" "d" s1) (init false) = ok b1) as E1
      by (vm_compute; reflexivity).
    assert (process_record (mk_record "data2" "d" s2) b1 = ok b2) as E2
      by (vm_compute; reflexivity).
    rewrite E1 in Hrun. unfold ok in Hrun. rewrite H2 in Hrun.
    fold (@ok BorgAnalyzer) in Hrun. rewrite E2 in Hrun. unfold ok in Hrun.
    assert (process_lines json_loads [l1; l2] (init false) = inr b2) as Hb2.
    { cbn [process_lines]. rewrite H1, E1. unfold ok. by rewrite H2, E2. }
    apply process_lines_post in Hb2 as [_ Hok2].
    specialize (Hok2 (store_ok_init false)).
    apply process_lines_post in Hrun as [(_ & [tail Hroots] & Hobjs) Hok].
    specialize (Hok Hok2).
    destruct (Hobjs 0 {| name := "data1"; size := JNum 0; sub := [] |})
      as (o1 & Ho1 & Hn1 & _); [done|].
    destruct (Hobjs 1 {| name := "data2"; size := JNum 0; sub := [] |})
      as (o2 & Ho2 & Hn2 & _); [done|].
    exists tail, o1, o2. repeat split; try done.
    intros e [He1 He2].
    by pose proof (store_ok_unique_parent a 0 1 e Hok He1 He2).
Qed.

Lemma per_dataset_roots_witness :
  process_record (mk_record "data1" "d" 0) (init false)
  = ok {| full_path := false;
          objects := objects (init false)
                     ++ [{| name := basename "data1"; size := JNum 0; sub := [] |}];
          _root_objects := _root_objects (init false)
                           ++ [length (objects (init false))];
          _fs_cache := <["data1" := length (objects (init false))]>
                         (_fs_cache (init false)) |}
  ∧ ∃ a, process_lines sample_loads
           [record_line "data1" "d" "0"; record_line "data2" "d" "0";
            record_line "data1/f" "f" "7"] (init false)
         = inr a
       ∧ ∃ tail o1 o2,
           _root_objects a = 0 :: 1 :: tail
           ∧ objects a !! 0 = Some o1 ∧ name o1 = "data1"
           ∧ objects a !! 1 = Some o2 ∧ name o2 = "data2"
           ∧ ∀ e, ¬ (child_of a 0 e ∧ child_of a 1 e).
Proof.
  destruct per_dataset_roots as [Hone Htwo]. split.
  - apply (Hone (init false) (mk_record "data1" "d" 0) "data1" (JNum 0)); done.
  - eexists. split; [reflexivity|].
    apply (Htwo sample_loads (record_line "data1" "d" "0")
             (record_line "data2" "d" "0") [record_line "data1/f" "f" "7"] 0%Z 0%Z);
      reflexivity.
Defined.

(** ** Parent lookups in full-path mode *)

(** C1 (the claim as written: a lone file record has its ancestors
    synthesized) fails: the file branch looks its parent up without any
    synthesis, so the single record x/y/z.txt raises [KeyError] on x/y. *)
Lemma lone_file_raises_KeyError :
  analyze sample_loads sample_limit [record_line "x/y/z.txt" "f" "5"] true
  = raise (KeyError "x/y").
Proof. reflexivity. Qed.

(** C1, amended: in full-path mode a directory record never fails, from any
    state; a file record succeeds when its parent directory is empty or
    indexed and raises [KeyError] on it otherwise; and x/y/z.txt announced
    after the directory x/y serializes to / -> x -> y -> z.txt, x and y
    name-only and z.txt a leaf of dsize 5 (the three nested calls of
    [entry_to_ncdu] being allowed). *)
Theorem full_path_lookup :
  (∀ a record path sz,
     full_path a = true →
     getitem record "path" = ok (JStr path) →
     getitem record "type" = ok (JStr "d") →
     getitem record "size" = ok sz →
     ∃ a', process_record record a = ok a')
  ∧ (∀ a record path ty sz,
       getitem record "path" = ok (JStr path) → path ≠ "." →
       getitem record "type" = ok ty → eq_str ty "d" = false →
       getitem record "size" = ok sz →
       if decide (dirname path = "" ∨ is_Some (_fs_cache a !! dirname path))
       then ∃ a', process_record record a = ok a'
       else process_record record a = raise (KeyError (dirname path)))
  ∧ (∀ json_loads limit l1 l2,
       3 ≤ limit →
       json_loads l1 = Some (mk_record "x/y" "d" 0) →
       json_loads l2 = Some (mk_record "x/y/z.txt" "f" 5) →
       analyze json_loads limit [l1; l2] true
       = ok (JArr [JNum 1; JNum 1; JObj [];
                   JArr [JObj [("name", JStr "/")];
                         JArr [JObj [("name", JStr "x")];
                               JArr [JObj [("name", JStr "y")];
                                     JObj [("name", JStr "z.txt");
                                           ("dsize", JNum 5)]]]]])).
Proof.
  split; [|split].
  - intros a record path sz Hmode Hpath Hty Hsz.
    unfold process_record. rewrite Hpath, Hty, Hsz. cbn [bind ok].
    destruct (eq_str (JStr path) "."); [by eexists|].
    cbn [as_str bind ok eq_str]. rewrite String.eqb_refl.
    destruct (_fs_cache a !! dirname path); [by eexists|].
    unfold _process_new_dir. rewrite Hmode.
    destruct (full_path_synthesis a path) as (a' & Hrun & _). by exists a'.
  - intros a record path ty sz Hpath Hdot Hty Hfile Hsz.
    unfold process_record. rewrite Hpath, Hty, Hsz. cbn [bind ok].
    rewrite (eq_str_ne _ _ Hdot), Hfile. cbn [as_str bind ok].
    unfold cache_get.
    destruct (String.eqb_spec (dirname path) "") as [Heq|Hne].
    + rewrite decide_True by (by left). by eexists.
    + destruct (_fs_cache a !! dirname path) as [p|] eqn:Hp.
      * rewrite decide_True by (right; by eexists). by eexists.
      * rewrite decide_False; [done|]. intros [?|[? ?]]; done.
  - intros json_loads limit l1 l2 Hlimit H1 H2.
    destruct limit as [|[|[|d]]]; [lia..|].
    unfold analyze. cbn [process_lines].
    rewrite H1.
    assert (process_record (mk_record "x/y" "d" 0) (init true)
            = ok {| full_path := true;
                    objects := [{| name := "x"; size := JNum 0; sub := [1] |};
                                {| name := "y"; size := JNum 0; sub := [] |}];
                    _root_objects := [0];
                    _fs_cache := <["x/y" := 1]> (<["x" := 0]> ∅) |}) as ->
      by (vm_compute; reflexivity).
    unfold ok. rewrite H2. vm_compute. reflexivity.
Qed.

Lemma full_path_lookup_witness :
  (∃ a', process_record (mk_record "a/b/c" "d" 0) (init true) = ok a')
  ∧ process_record (mk_record "x/y/z.txt" "f" 5) (init true)
    = raise (KeyError (dirname "x/y/z.txt"))
  ∧ analyze sample_loads sample_limit
      [record_line "x/y" "d" "0"; record_line "x/y/z.txt" "f" "5"] true
    = ok (JArr [JNum 1; JNum 1; JObj [];
                JArr [JObj [("name", JStr "/")];
                      JArr [JObj [("name", JStr "x")];
                            JArr [JObj [("name", JStr "y")];
                                  JObj [("name", JStr "z.txt");
                                        ("dsize", JNum 5)]]]]]).
Proof.
  destruct full_path_lookup as (Hdir & Hfile & Hdoc). split; [|split].
  - apply (Hdir (init true) (mk_record "a/b/c" "d" 0) "a/b/c" (JNum 0));
      reflexivity.
  - apply (Hfile (init true) (mk_record "x/y/z.txt" "f" 5) "x/y/z.txt"
             (JStr "f") (JNum 5)); done.
  - apply (Hdoc sample_loads sample_limit); [unfold sample_limit; lia|..];
      reflexivity.
Defined.

(** ** Directory sizes *)

(** C3 (the claim as written: a directory's declared size is ignored in both
    branches) fails in the parent-already-indexed branch: the entry
    registered for a/b carries the declared 4096, and an empty directory is
    emitted with it. *)
Lemma indexed_parent_keeps_declared_size :
  ∃ a, process_lines sample_loads
         [record_line "a" "d" "0"; record_line "a/b" "d" "4096"] (init true)
       = inr a
     ∧ _fs_cache a !! "a/b" = Some 1
     ∧ objects a !! 1 = Some {| name := "b"; size := JNum 4096; sub := [] |}
     ∧ analyze sample_loads sample_limit
         [record_line "a" "d" "0"; record_line "a/b" "d" "4096"] true
       = ok (JArr [JNum 1; JNum 1; JObj [];
                   JArr [JObj [("name", JStr "/")];
                         JArr [JObj [("name", JStr "a")];
                               JObj [("name", JStr "b");
                                     ("dsize", JNum 4096)]]]]).
Proof. eexists. split; [reflexivity|]. repeat split. Qed.

(** C3, amended: for a directory record, when the parent is indexed the
    entry created and registered for the path carries the record's declared
    size; when it is not, every entry the synthesis creates has size 0, and
    if the path was not indexed yet the entry registered for it is one of
    them. *)
Theorem directory_entry_size a record path sz :
  store_ok a →
  getitem record "path" = ok (JStr path) → path ≠ "." →
  getitem record "type" = ok (JStr "d") →
  getitem record "size" = ok sz →
  ∃ a', process_record record a = ok a'
      ∧ match _fs_cache a !! dirname path with
        | Some parent =>
            _fs_cache a' !! path = Some (length (objects a))
            ∧ objects a' !! length (objects a)
              = Some {| name := basename path; size := sz; sub := [] |}
        | None =>
            (∀ e o, length (objects a) ≤ e → objects a' !! e = Some o →
               size o = JNum 0)
            ∧ (_fs_cache a !! path = None →
                 ∃ e o, _fs_cache a' !! path = Some e
                      ∧ length (objects a) ≤ e
                      ∧ objects a' !! e = Some o ∧ size o = JNum 0)
        end.
Proof.
  intros Hok Hpath Hdot Hty Hsz.
  unfold process_record. rewrite Hpath, Hty, Hsz. cbn [bind ok].
  rewrite (eq_str_ne _ _ Hdot). cbn [as_str bind ok eq_str].
  rewrite String.eqb_refl.
  destruct (_fs_cache a !! dirname path) as [parent|] eqn:Hparent.
  - eexists. split; [reflexivity|]. simpl. split; [by rewrite lookup_insert_eq|].
    pose proof (ok_cache a Hok _ _ Hparent) as Hlt.
    rewrite list_lookup_alter_ne by lia. by apply list_lookup_middle.
  - unfold _process_new_dir. destruct (full_path a).
    + destruct (full_path_synthesis a path)
        as (a' & Hrun & _ & Hs & _ & Hd & Hn & Hz & _).
      exists a'. split; [done|]. split; [done|]. intros Hnew.
      destruct (proj2 (Hd path)) as [e He]; [right; apply path_in_prefixes|].
      pose proof (Hn path e Hnew He) as Hge.
      destruct (lookup_lt_is_Some_2 (objects a') e) as [o Ho].
      { by eapply (ok_cache a' (Hs Hok)). }
      exists e, o. repeat split; [done|done|done|]. by eapply Hz.
    + eexists. split; [reflexivity|]. simpl. split.
      * intros e o He Ho. apply lookup_app_Some in Ho as [Ho|[_ Ho]].
        -- apply lookup_lt_Some in Ho. lia.
        -- by apply list_lookup_singleton_Some in Ho as [_ <-].
      * intros _. eexists _, _. split; [by rewrite lookup_insert_eq|].
        split; [done|]. split; [by apply list_lookup_middle|done].
Qed.

Lemma directory_entry_size_witness :
  ∃ a', process_record (mk_record "a/b" "d" 4096) sample_indexed = ok a'
      ∧ match _fs_cache sample_indexed !! dirname "a/b" with
        | Some parent =>
            _fs_cache a' !! "a/b" = Some (length (objects sample_indexed))
            ∧ objects a' !! length (objects sample_indexed)
              = Some {| name := basename "a/b"; size := JNum 4096; sub := [] |}
        | None =>
            (∀ e o, length (objects sample_indexed) ≤ e →
               objects a' !! e = Some o → size o = JNum 0)
            ∧ (_fs_cache sample_indexed !! "a/b" = None →
                 ∃ e o, _fs_cache a' !! "a/b" = Some e
                      ∧ length (objects sample_indexed) ≤ e
                      ∧ objects a' !! e = Some o ∧ size o = JNum 0)
        end.
Proof.
  apply (directory_entry_size sample_indexed (mk_record "a/b" "d" 4096)
           "a/b" (JNum 4096)); [|reflexivity|done|reflexivity|reflexivity].
  apply (process_record_post (mk_record "a" "d" 0) (init true));
    [reflexivity|apply store_ok_init].
Defined.

(** ** Repeated announcements in full-path mode *)

Lemma for_each_present (pps : list (string * string)) a :
  (∀ pp, pp ∈ pps → is_Some (_fs_cache a !! pp.2)) →
  for_each full_path_step pps a = ok a.
Proof.
  induction pps as [|[parent part] pps IH]; intros Hall; [done|].
  cbn [for_each full_path_step].
  destruct (Hall (parent, part)) as [e He]; [by left|]. simpl in He.
  rewrite He. cbn [bind ok]. apply IH. intros pp Hpp. apply Hall. by right.
Qed.

(** C2 (the claim as written: one entry per directory path however it is
    announced twice) fails when the second announcement is an explicit
    directory record whose parent is indexed: that branch never consults the
    index for the path itself.  Here a/b is first synthesized as an ancestor
    of a/b/c and then announced explicitly; the index entry for a/b is
    replaced and the tree holds two entries b under a. *)
Lemma explicit_reannouncement_duplicates :
  ∃ a1 a2,
    process_lines sample_loads [record_line "a/b/c" "d" "0"] (init true) = inr a1
    ∧ process_lines sample_loads
        [record_line "a/b/c" "d" "0"; record_line "a/b" "d" "0"] (init true)
      = inr a2
    ∧ _fs_cache a1 !! "a/b" = Some 1
    ∧ _fs_cache a2 !! "a/b" = Some 3
    ∧ objects a2 = [ {| name := "a"; size := JNum 0; sub := [1; 3] |};
                     {| name := "b"; size := JNum 0; sub := [2] |};
                     {| name := "c"; size := JNum 0; sub := [] |};
                     {| name := "b"; size := JNum 0; sub := [] |} ].
Proof. eexists _, _. split; [reflexivity|]. split; [reflexivity|]. repeat split. Qed.

(** C2, amended: ancestor synthesis never fails, keeps the index entry and
    the Entry of every path that is already indexed, creates exactly one
    fresh entry for each prefix that is missing and none for the others,
    leaves every prefix indexed, and a second synthesis of the same path
    changes nothing; it is what a directory record whose parent is not
    indexed runs in full-path mode. *)
Theorem synthesis_idempotent a path :
  ∃ a', _process_new_dir_full_path path a = ok a'
      ∧ (∀ k e, _fs_cache a !! k = Some e → _fs_cache a' !! k = Some e)
      ∧ (∀ e o, objects a !! e = Some o →
           ∃ o', objects a' !! e = Some o' ∧ name o' = name o ∧ size o' = size o)
      ∧ length (objects a')
        = length (objects a)
          + length (filter (λ k, _fs_cache a !! k = None) (path_prefixes path))
      ∧ (∀ k, k ∈ path_prefixes path → is_Some (_fs_cache a' !! k))
      ∧ _process_new_dir_full_path path a' = ok a'
      ∧ ∀ record sz,
          full_path a = true →
          getitem record "path" = ok (JStr path) → path ≠ "." →
          getitem record "type" = ok (JStr "d") →
          getitem record "size" = ok sz →
          _fs_cache a !! dirname path = None →
          process_record record a = ok a'.
Proof.
  destruct (full_path_synthesis a path)
    as (a' & Hrun & (_ & _ & Hobj) & _ & Hp & Hd & _ & _ & Hl).
  exists a'. split; [done|]. split; [done|].
  split; [|split; [done|split; [|split]]]; cycle 3.
  { intros record sz Hmode Hpath Hdot Hty Hsz Hparent.
    unfold process_record. rewrite Hpath, Hty, Hsz. cbn [bind ok].
    rewrite (eq_str_ne _ _ Hdot). cbn [as_str bind ok eq_str].
    rewrite String.eqb_refl, Hparent. unfold _process_new_dir.
    by rewrite Hmode. }
  - intros e o Ho. destruct (Hobj e o Ho) as (o' & Ho' & Hn & Hs & _).
    by exists o'.
  - intros k Hk. apply Hd. by right.
  - apply for_each_present. intros [parent part] Hpp. apply Hd. right.
    unfold path_prefixes. apply list_elem_of_fmap. by exists (parent, part).
Qed.

Lemma synthesis_idempotent_witness :
  ∃ a', _process_new_dir_full_path "a/b" (init true) = ok a'
      ∧ length (objects a') = 2
      ∧ is_Some (_fs_cache a' !! "a")
      ∧ _process_new_dir_full_path "a/b" a' = ok a'.
Proof.
  destruct (synthesis_idempotent (init true) "a/b")
    as (a' & Hrun & _ & _ & Hlen & Hall & Hidem & _).
  exists a'. split; [exact Hrun|]. split; [exact Hlen|]. split; [|exact Hidem].
  apply Hall. vm_compute. left.
Defined.

(** ** The empty key *)

Lemma process_record_keys record a a' k :
  process_record record a = ok a' →
  _fs_cache a !! k = None → is_Some (_fs_cache a' !! k) →
  ∃ path, getitem record "path" = ok (JStr path)
        ∧ (k = path ∨ (full_path a = true ∧ k ∈ path_prefixes path)).
Proof.
  unfold process_record. intros H Hk Hk'.
  apply bind_ok in H as (path & Hpath & H). apply bind_ok in H as (ty & _ & H).
  destruct (eq_str path ".").
  { injection H as <-. rewrite Hk in Hk'. by destruct Hk'. }
  apply bind_ok in H as (sz & _ & H). apply bind_ok in H as (p & Hp & H).
  apply as_str_ok in Hp as ->. exists p. split; [done|].
  assert (∀ e (m : gmap string nat), m !! k = None → is_Some (<[p := e]> m !! k) →
            k = p) as Hins.
  { intros e m Hm. rewrite lookup_insert. case_decide; [done|].
    rewrite Hm. by intros []. }
  destruct (eq_str ty "d").
  - destruct (_fs_cache a !! dirname p).
    + injection H as <-. left. simpl in Hk'. by eapply Hins.
    + unfold _process_new_dir in H. destruct (full_path a).
      * destruct (full_path_synthesis a p) as (a'' & Hrun & _ & _ & _ & Hd & _).
        rewrite Hrun in H. injection H as <-.
        apply Hd in Hk' as [Hk'|Hk']; [|by right].
        rewrite Hk in Hk'. by destruct Hk'.
      * injection H as <-. left. simpl in Hk'. by eapply Hins.
  - destruct (String.eqb (dirname p) "").
    + injection H as <-. left. simpl in Hk'. by eapply Hins.
    + apply bind_ok in H as (parent & _ & H). injection H as <-.
      simpl in Hk'. rewrite Hk in Hk'. by destruct Hk'.
Qed.

(** C10 (the claim as written: with non-empty paths the empty string is
    never a key) fails in full-path mode for a path with a leading slash:
    its first prefix is the empty string.  Afterwards the top-level
    directory b finds its parent "" indexed and is attached below that
    entry instead of being routed to synthesis. *)
Lemma leading_slash_indexes_empty_key :
  ∃ a, process_lines sample_loads [record_line "/a" "d" "0"] (init true) = inr a
     ∧ _fs_cache a !! "" = Some 0
     ∧ analyze sample_loads sample_limit
         [record_line "/a" "d" "0"; record_line "b" "d" "0"] true
       = ok (JArr [JNum 1; JNum 1; JObj [];
                   JArr [JObj [("name", JStr "/")];
                         JArr [JObj [("name", JStr "")];
                               JObj [("name", JStr "b"); ("dsize", JNum 0)]];
                         JObj [("name", JStr "a"); ("dsize", JNum 0)]]]).
Proof. eexists. split; [reflexivity|]. split; reflexivity. Qed.

(** C10, amended: provided every record's path is a non-empty string that,
    in full-path mode, does not begin with a slash, the empty string is
    never a key of the index; so a directory record whose parent_dir is
    empty is always routed to [_process_new_dir]. *)
Theorem empty_key_never_indexed json_loads lines fp a :
  (∀ line record path, line ∈ lines → json_loads line = Some record →
     getitem record "path" = ok (JStr path) →
     path ≠ "" ∧ (fp = true → starts_with_slash path = false)) →
  process_lines json_loads lines (init fp) = inr a →
  _fs_cache a !! "" = None
  ∧ ∀ record path sz,
      getitem record "path" = ok (JStr path) → path ≠ "." →
      getitem record "type" = ok (JStr "d") →
      getitem record "size" = ok sz →
      dirname path = "" →
      process_record record a = _process_new_dir path a.
Proof.
  intros Hpaths Hrun.
  assert (full_path a = fp ∧ _fs_cache a !! "" = None) as [_ Hempty].
  { apply (process_lines_inv json_loads
             (λ b, full_path b = fp ∧ _fs_cache b !! "" = None)
             lines (init fp) a); [|done|done].
    intros line record b b' Hline Hrec [Hmode Hb] Hstep. split.
    - apply process_record_post in Hstep as [(Hm & _) _]. congruence.
    - destruct (_fs_cache b' !! "") as [e|] eqn:Hb'; [|done]. exfalso.
      destruct (process_record_keys record b b' "" Hstep Hb)
        as (path & Hpath & Hk); [by rewrite Hb'|].
      destruct (Hpaths line record path Hline Hrec Hpath) as [Hne Hsl].
      destruct Hk as [Hk|[Hfull Hk]]; [done|].
      apply (prefixes_nonempty path "" Hne); [|done|done].
      apply Hsl. congruence. }
  split; [done|]. intros record path sz Hpath Hdot Hty Hsz Hdir.
  unfold process_record. rewrite Hpath, Hty, Hsz. cbn [bind ok].
  rewrite (eq_str_ne _ _ Hdot). cbn [as_str bind ok eq_str].
  by rewrite String.eqb_refl, Hdir, Hempty.
Qed.

Lemma empty_key_never_indexed_witness :
  ∃ a, process_lines sample_loads
         [record_line "a" "d" "0"; record_line "a/b" "d" "0"] (init true) = inr a
     ∧ _fs_cache a !! "" = None
     ∧ ∀ record path sz,
         getitem record "path" = ok (JStr path) → path ≠ "." →
         getitem record "type" = ok (JStr "d") →
         getitem record "size" = ok sz →
         dirname path = "" →
         process_record record a = _process_new_dir path a.
Proof.
  eexists. split; [reflexivity|].
  apply (empty_key_never_indexed sample_loads
           [record_line "a" "d" "0"; record_line "a/b" "d" "0"] true);
    [|reflexivity].
  intros line record path Hline Hrec Hpath.
  apply elem_of_cons in Hline as [->|Hline];
    [|apply list_elem_of_singleton in Hline as ->];
    injection Hrec as <-; injection Hpath as <-; done.
Defined.

(** * Further properties of the code *)

(** ** The prefixes of a path *)

Lemma iterate_path_parts_lookup path i pp :
  iterate_path_parts path !! i = Some pp →
  pp = (join (take i (split path)), join (take (i + 1) (split path)))
  ∧ i < length (split path).
Proof.
  unfold iterate_path_parts. rewrite list_lookup_fmap.
  destruct (seq 0 (length (split path)) !! i) as [k|] eqn:Hk; [|done].
  apply lookup_seq in Hk as [-> Hlt]. simpl. intros [= <-]. done.
Qed.

Lemma iterate_path_parts_length path :
  length (iterate_path_parts path) = length (split path).
Proof. unfold iterate_path_parts. by rewrite length_fmap, length_seq. Qed.

(** X1: [iterate_path_parts] yields one pair per path component; the first
    parent is the empty string, each later parent is the part of the pair
    before it, the last part is the path itself, and the parts are pairwise
    distinct. *)
Theorem iterate_path_parts_chain path :
  length (iterate_path_parts path) = length (split path)
  ∧ (∃ part rest, iterate_path_parts path = ("", part) :: rest)
  ∧ (∀ i pp qq, iterate_path_parts path !! i = Some pp →
       iterate_path_parts path !! S i = Some qq → qq.1 = pp.2)
  ∧ (∃ parent, last (iterate_path_parts path) = Some (parent, path))
  ∧ NoDup (path_prefixes path).
Proof.
  split; [apply iterate_path_parts_length|]. split; [|split; [|split]].
  - unfold iterate_path_parts. pose proof (split_not_nil path) as Hne.
    destruct (split path) as [|h t]; [done|]. simpl. by eexists _, _.
  - intros i pp qq Hi HS.
    apply iterate_path_parts_lookup in Hi as [-> _].
    apply iterate_path_parts_lookup in HS as [-> _]. simpl.
    by rewrite Nat.add_1_r.
  - rewrite last_lookup, iterate_path_parts_length.
    pose proof (split_not_nil path) as Hne.
    destruct (lookup_lt_is_Some_2 (iterate_path_parts path)
                (pred (length (split path)))) as [pp Hpp].
    { rewrite iterate_path_parts_length. destruct (split path); [done|]. simpl. lia. }
    rewrite Hpp. apply iterate_path_parts_lookup in Hpp as [-> _].
    eexists. do 2 f_equal.
    replace (pred (length (split path)) + 1) with (length (split path))
      by (destruct (split path); [done|]; simpl; lia).
    by rewrite firstn_all, join_split.
  - rewrite path_prefixes_seq. apply NoDup_alt. intros i j k Hi Hj.
    rewrite list_lookup_fmap in Hi, Hj.
    destruct (seq 0 (length (split path)) !! i) as [i'|] eqn:Hi'; [|done].
    destruct (seq 0 (length (split path)) !! j) as [j'|] eqn:Hj'; [|done].
    apply lookup_seq in Hi' as [-> Hilt]. apply lookup_seq in Hj' as [-> Hjlt].
    simpl in Hi, Hj. injection Hi as <-. injection Hj as Hj.
    destruct (Nat.lt_trichotomy i j) as [Hlt|[->|Hgt]]; [|done|].
    + by pose proof (join_take_ne (split path) i j Hlt Hjlt).
    + by pose proof (join_take_ne (split path) j i Hgt Hilt).
Qed.

(** ** Every run is a sequence of retentions *)

Lemma iterate_path_parts_distinct path pp :
  pp ∈ iterate_path_parts path → pp.1 = "" ∨ pp.1 ≠ pp.2.
Proof.
  intros Hin. apply list_elem_of_lookup in Hin as [i Hi].
  apply iterate_path_parts_lookup in Hi as [-> Hlt]. simpl.
  destruct i as [|i]; [by left|right].
  intros Heq.
  pose proof (join_take_length_lt (split path) i (S i)) as Hl.
  rewrite Nat.add_1_r in Hl. rewrite Heq in Hl. lia.
Qed.

Lemma full_path_step_retains (K : string → Prop) a parent part a' :
  K part →
  parent = "" ∨ parent ≠ part →
  full_path_step a (parent, part) = ok a' → rtc (retains K) a a'.
Proof.
  intros HK Hpp. unfold full_path_step.
  destruct (_fs_cache a !! part) eqn:Hpart.
  - intros [= <-]. done.
  - cbn [alloc fst snd]. destruct (String.eqb_spec parent "") as [->|Hne].
    + intros [= <-]. apply rtc_once. by apply (retains_root K a part (JNum 0)).
    + intros H. apply bind_ok in H as (p & Hp & H). injection H as <-.
      apply cache_get_ok in Hp. simpl in Hp.
      rewrite lookup_insert_ne in Hp by (destruct Hpp; congruence).
      apply rtc_once. exact (retains_child K a part (JNum 0) parent p HK Hp).
Qed.

Lemma for_each_rtc {X} (R : relation BorgAnalyzer)
    (f : BorgAnalyzer → X → result BorgAnalyzer) xs : ∀ a a',
  (∀ b x b', x ∈ xs → f b x = ok b' → rtc R b b') →
  for_each f xs a = ok a' → rtc R a a'.
Proof.
  induction xs as [|x xs IH]; intros a a' Hstep Hrun.
  - by injection Hrun as <-.
  - simpl in Hrun. apply bind_ok in Hrun as (b & Hb & Hrun).
    etrans; [by eapply (Hstep a x b); [left|]|].
    apply IH; [|done]. intros c y c' Hy. apply Hstep. by right.
Qed.

(** A record retains entries only for prefixes of its own path. *)
Lemma process_record_retains record a a' :
  process_record record a = ok a' →
  ∃ path, getitem record "path" = ok (JStr path)
        ∧ rtc (retains (λ k, k ∈ path_prefixes path)) a a'.
Proof.
  unfold process_record. intros H.
  apply bind_ok in H as (path & Hpath & H). apply bind_ok in H as (ty & _ & H).
  destruct (eq_str path ".") eqn:Hdot.
  { injection H as <-. destruct path; try done. by eexists. }
  apply bind_ok in H as (sz & _ & H). apply bind_ok in H as (p & Hp & H).
  apply as_str_ok in Hp as ->. exists p. split; [done|].
  pose proof (path_in_prefixes p) as Hin.
  destruct (eq_str ty "d").
  - destruct (_fs_cache a !! dirname p) as [parent|] eqn:Hparent.
    + injection H as <-. apply rtc_once.
      exact (retains_child _ a p sz (dirname p) parent Hin Hparent).
    + unfold _process_new_dir in H. destruct (full_path a).
      * apply (for_each_rtc _ full_path_step (iterate_path_parts p)); [|done].
        intros b [parent part] b' Hpp.
        apply full_path_step_retains.
        -- unfold path_prefixes. apply list_elem_of_fmap. by exists (parent, part).
        -- by apply (iterate_path_parts_distinct p (parent, part)).
      * injection H as <-. apply rtc_once. by apply (retains_root _ a p (JNum 0)).
  - destruct (String.eqb (dirname p) "").
    + injection H as <-. apply rtc_once. by apply (retains_root _ a p sz).
    + apply bind_ok in H as (parent & Hparent & H). apply cache_get_ok in Hparent.
      injection H as <-. apply rtc_once.
      exact (retains_leaf _ a p sz (dirname p) parent Hin Hparent).
Qed.

Lemma retains_store_ok K a a' : retains K a a' → store_ok a → store_ok a'.
Proof.
  intros [k sz HK|k sz q p HK Hq|k sz q p HK Hq] Hok.
  - change (store_ok (cache_set k (length (objects a))
              (root_append (length (objects a)) (alloc (from_filename k sz) a).2))).
    apply store_ok_cache_set; [by apply store_ok_root|].
    simpl. rewrite length_app. simpl. lia.
  - apply store_ok_cache_set.
    + apply store_ok_child; [done|done|]. by eapply ok_cache.
    + simpl. rewrite length_alter, length_app. simpl. lia.
  - apply store_ok_child; [done|done|]. by eapply ok_cache.
Qed.

(** What one retention does to the store: the old entries keep their
    position, name and size, and one entry named after the key is added. *)
Lemma retains_objects K a a' :
  retains K a a' →
  ∃ k sz, K k ∧ length (objects a') = S (length (objects a))
    ∧ (∃ o, objects a' !! length (objects a) = Some o
          ∧ name o = basename k ∧ size o = sz)
    ∧ (∀ e o, objects a !! e = Some o →
         ∃ o', objects a' !! e = Some o' ∧ name o' = name o ∧ size o' = size o)
    ∧ (∀ k' e, _fs_cache a' !! k' = Some e →
         _fs_cache a !! k' = Some e ∨ (k' = k ∧ e = length (objects a))).
Proof.
  assert (∀ p (l : list FSEntry) x e, ∃ o, alter (push_sub e) p (l ++ [x]) !! length l = Some o
            ∧ name o = name x ∧ size o = size x) as Hnew.
  { intros p l x e. rewrite list_lookup_alter.
    case_decide; [subst|]; rewrite list_lookup_middle by done; by eexists. }
  assert (∀ p (l : list FSEntry) x e i o, l !! i = Some o →
            ∃ o', alter (push_sub e) p (l ++ [x]) !! i = Some o'
                  ∧ name o' = name o ∧ size o' = size o) as Hold.
  { intros p l x e i o Ho. rewrite list_lookup_alter.
    case_decide; [subst|]; rewrite (lookup_app_l_Some _ _ _ _ Ho); by eexists. }
  intros [k sz HK|k sz q p HK Hq|k sz q p HK Hq]; exists k, sz;
    (split; [exact HK|]); simpl.
  - split; [rewrite length_app; simpl; lia|]. split; [|split].
    + eexists. split; [by apply list_lookup_middle|done].
    + intros e o Ho. exists o. split; [by apply lookup_app_l_Some|done].
    + intros k' e. rewrite lookup_insert. case_decide; [|by left].
      intros [= <-]. by right.
  - split; [rewrite length_alter, length_app; simpl; lia|].
    split; [apply Hnew|]. split; [apply Hold|].
    intros k' e. rewrite lookup_insert. case_decide; [|by left].
    intros [= <-]. by right.
  - split; [rewrite length_alter, length_app; simpl; lia|].
    split; [apply Hnew|]. split; [apply Hold|]. intros k' e Hk. by left.
Qed.

Lemma process_lines_retains json_loads lines a a' :
  process_lines json_loads lines a = inr a' →
  rtc (retains (announced json_loads lines)) a a'.
Proof.
  intros Hrun.
  apply (process_lines_inv json_loads
           (λ b, rtc (retains (announced json_loads lines)) a b) lines a a');
    [|done|done].
  intros line record b b' Hline Hrec Hb Hstep. etrans; [exact Hb|].
  destruct (process_record_retains record b b' Hstep) as (path & Hpath & Hsteps).
  eapply rtc_subrel; [|exact Hsteps].
  intros x y [k sz HK|k sz q p HK Hq|k sz q p HK Hq];
    [apply retains_root|eapply retains_child|eapply retains_leaf]; try done;
    by exists line, record, path.
Qed.

Lemma basename_no_slash k : no_slash (basename k) = true.
Proof.
  unfold basename.
  assert (∀ s, rfind1 s = 0 → no_slash s = true) as Hzero.
  { induction s as [|c s IHs]; [done|]. simpl.
    destruct (rfind1 s); [|done]. destruct (is_slash c); [done|].
    intros _. by rewrite IHs. }
  induction k as [|c k IHk]; [done|]. simpl.
  destruct (rfind1 k) as [|r] eqn:Hr.
  - destruct (is_slash c) eqn:Hc; simpl.
    + by apply Hzero.
    + rewrite Hc. simpl. by apply Hzero.
  - exact IHk.
Qed.

(** Every entry present after a sequence of retentions was there before
    or is named by the last component of one of the keys. *)
Lemma retains_names K a a' :
  rtc (retains K) a a' →
  ∀ e o, objects a' !! e = Some o →
    (∃ o0, objects a !! e = Some o0 ∧ name o = name o0)
    ∨ ∃ k, K k ∧ name o = basename k.
Proof.
  induction 1 as [a|a b c Hstep _ IH]; [intros e o Ho; left; by exists o|].
  destruct (retains_objects K a b Hstep)
    as (k & sz & HK & Hlen & (o1 & Ho1 & Hn1 & _) & Hold & _).
  intros e o Ho. destruct (IH e o Ho) as [(ob & Hob & Hname)|Hnew]; [|by right].
  destruct (decide (e < length (objects a))) as [Hlt|Hge].
  - left. destruct (lookup_lt_is_Some_2 (objects a) e Hlt) as [x Hx].
    destruct (Hold e x Hx) as (x' & Hx' & Hnx & _).
    rewrite Hob in Hx'. injection Hx' as <-. exists x. split; [done|congruence].
  - right. apply lookup_lt_Some in Hob as Hlt'.
    assert (e = length (objects a)) as -> by lia.
    rewrite Ho1 in Hob. injection Hob as <-. exists k. split; [done|congruence].
Qed.

Lemma retains_index_named K a a' :
  rtc (retains K) a a' →
  store_ok a ∧ index_named a → store_ok a' ∧ index_named a'.
Proof.
  induction 1 as [a|a b c Hstep _ IH]; [done|]. intros [Hok Hnamed]. apply IH.
  split; [by eapply retains_store_ok|].
  destruct (retains_objects K a b Hstep)
    as (k & sz & _ & Hlen & (o & Ho & Hn & _) & Hold & Hcache).
  intros k' e' o' Hk' Ho'.
  destruct (Hcache k' e' Hk') as [Hk|[-> ->]].
  - pose proof (ok_cache a Hok _ _ Hk) as Hlt.
    destruct (lookup_lt_is_Some_2 (objects a) e' Hlt) as [x Hx].
    destruct (Hold e' x Hx) as (x' & Hx' & Hnx & _).
    rewrite Ho' in Hx'. injection Hx' as <-. rewrite Hnx. by eapply Hnamed.
  - rewrite Ho in Ho'. by injection Ho' as <-.
Qed.

(** X2: after any successful run, in either mode, every entry is named by
    the last component of the path of some input record or of a prefix of
    that path; in particular no entry name contains a slash. *)
Theorem names_have_no_slash json_loads lines fp a e o :
  process_lines json_loads lines (init fp) = inr a →
  objects a !! e = Some o →
  (∃ line record path k,
     line ∈ lines ∧ json_loads line = Some record
     ∧ getitem record "path" = ok (JStr path)
     ∧ k ∈ path_prefixes path ∧ name o = basename k)
  ∧ no_slash (name o) = true.
Proof.
  intros Hrun Ho. apply process_lines_retains in Hrun.
  destruct (retains_names _ _ _ Hrun e o Ho)
    as [(o0 & Ho0 & _)|(k & (line & record & path & H1 & H2 & H3 & H4) & Hname)].
  { simpl in Ho0. by rewrite lookup_nil in Ho0. }
  split; [by exists line, record, path, k|].
  rewrite Hname. apply basename_no_slash.
Qed.

Lemma names_have_no_slash_witness :
  ∃ a o, process_lines sample_loads
           [record_line "x/y" "d" "0"; record_line "x/y/z.txt" "f" "5"] (init true)
         = inr a
       ∧ objects a !! 2 = Some o
       ∧ (∃ line record path k,
            line ∈ [record_line "x/y" "d" "0"; record_line "x/y/z.txt" "f" "5"]
            ∧ sample_loads line = Some record
            ∧ getitem record "path" = ok (JStr path)
            ∧ k ∈ path_prefixes path ∧ name o = basename k)
       ∧ no_slash (name o) = true.
Proof.
  eexists _, _. split; [reflexivity|]. split; [reflexivity|].
  eapply (names_have_no_slash sample_loads
            [record_line "x/y" "d" "0"; record_line "x/y/z.txt" "f" "5"]
            true _ 2 _); reflexivity.
Defined.

(** X3: after any successful run, in both modes, the entry the index holds
    for a key is named by the last component of that key. *)
Theorem index_names_last_component json_loads lines fp a k e o :
  process_lines json_loads lines (init fp) = inr a →
  _fs_cache a !! k = Some e → objects a !! e = Some o →
  name o = basename k.
Proof.
  intros Hrun. apply process_lines_retains in Hrun.
  destruct (retains_index_named _ _ _ Hrun) as [_ Hnamed]; [|by apply Hnamed].
  split; [apply store_ok_init|]. intros k' e' o' Hk'. simpl in Hk'.
  by rewrite lookup_empty in Hk'.
Qed.

Lemma index_names_last_component_witness :
  ∃ a o, process_lines sample_loads
           [record_line "x/y" "d" "0"; record_line "x/y/z.txt" "f" "5"] (init true)
         = inr a
       ∧ _fs_cache a !! "x/y" = Some 1 ∧ objects a !! 1 = Some o
       ∧ name o = basename "x/y".
Proof.
  eexists _, _. split; [reflexivity|]. split; [reflexivity|].
  split; [reflexivity|].
  eapply (index_names_last_component sample_loads
            [record_line "x/y" "d" "0"; record_line "x/y/z.txt" "f" "5"]
            true _ "x/y" 1 _); reflexivity.
Defined.

(** ** What a run never changes *)

Lemma retains_keys K a a' k :
  rtc (retains K) a a' →
  is_Some (_fs_cache a !! k) → is_Some (_fs_cache a' !! k).
Proof.
  induction 1 as [a|a b c Hstep _ IH]; [done|]. intros Hk. apply IH.
  destruct Hstep as [k' sz HK|k' sz q p HK Hq|k' sz q p HK Hq]; simpl;
    [| |done];
    rewrite lookup_insert; by case_decide.
Qed.

Lemma retains_length K a a' :
  rtc (retains K) a a' → length (objects a) ≤ length (objects a').
Proof.
  induction 1 as [a|a b c Hstep _ IH]; [done|].
  destruct (retains_objects K a b Hstep) as (k & sz & _ & Hlen & _). lia.
Qed.

(** X4: processing further lines, from any state, never changes the mode,
    never removes or renames an entry or changes its size, never removes or
    reorders the children an entry already has or the roots already listed,
    and never removes a key from the index. *)
Theorem entries_are_immutable json_loads lines a a' :
  process_lines json_loads lines a = inr a' →
  full_path a' = full_path a
  ∧ length (objects a) ≤ length (objects a')
  ∧ (∀ e o, objects a !! e = Some o →
       ∃ o', objects a' !! e = Some o' ∧ name o' = name o ∧ size o' = size o
             ∧ sub o `prefix_of` sub o')
  ∧ _root_objects a `prefix_of` _root_objects a'
  ∧ ∀ k, is_Some (_fs_cache a !! k) → is_Some (_fs_cache a' !! k).
Proof.
  intros Hrun. pose proof (process_lines_retains _ _ _ _ Hrun) as Hsteps.
  apply process_lines_post in Hrun as [(Hmode & [tail Hroots] & Hobj) _].
  split; [done|]. split; [by eapply retains_length|]. split; [|split].
  - intros e o Ho. destruct (Hobj e o Ho) as (o' & Ho' & Hn & Hs & more & Hm).
    exists o'. repeat split; [done|done|done|]. by exists more.
  - by exists tail.
  - intros k. by eapply retains_keys.
Qed.

Lemma entries_are_immutable_witness :
  ∃ a', process_lines sample_loads [record_line "a/b" "d" "4096"] sample_indexed
        = inr a'
      ∧ full_path a' = full_path sample_indexed
      ∧ length (objects sample_indexed) ≤ length (objects a')
      ∧ (∀ e o, objects sample_indexed !! e = Some o →
           ∃ o', objects a' !! e = Some o' ∧ name o' = name o ∧ size o' = size o
                 ∧ sub o `prefix_of` sub o')
      ∧ _root_objects sample_indexed `prefix_of` _root_objects a'
      ∧ ∀ k, is_Some (_fs_cache sample_indexed !! k) → is_Some (_fs_cache a' !! k).
Proof.
  eexists. split; [reflexivity|].
  apply (entries_are_immutable sample_loads [record_line "a/b" "d" "4096"]
           sample_indexed).
  reflexivity.
Defined.

(** ** Counting entries *)

Lemma length_concat_sub (l : list FSEntry) :
  length (concat (sub <$> l)) = sum_list_with (λ o, length (sub o)) l.
Proof.
  induction l as [|o l IH]; [done|].
  rewrite fmap_cons. cbn [concat sum_list_with]. by rewrite length_app, IH.
Qed.

(** X5: after any successful run the number of entries is the number of
    roots plus the total number of children: every entry is attached at
    exactly one place. *)
Theorem entries_counted_once json_loads lines fp a :
  process_lines json_loads lines (init fp) = inr a →
  length (objects a)
  = length (_root_objects a) + sum_list_with (λ o, length (sub o)) (objects a).
Proof.
  intros Hrun. apply process_lines_post in Hrun as [_ Hok].
  destruct (Hok (store_ok_init fp)) as [_ Hn Ha Hb _].
  rewrite <- length_concat_sub, <- length_app. fold (attachments a).
  assert (attachments a ≡ₚ seq 0 (length (objects a))) as ->.
  { apply NoDup_Permutation; [done|apply NoDup_seq|].
    intros e. rewrite elem_of_seq. split; [intros He%Hb; lia|].
    intros [_ He]. by apply Ha. }
  by rewrite length_seq.
Qed.

Lemma entries_counted_once_witness :
  ∃ a, process_lines sample_loads
         [record_line "data1" "d" "0"; record_line "data2" "d" "0";
          record_line "data1/f" "f" "7"] (init false)
       = inr a
     ∧ length (objects a)
       = length (_root_objects a)
         + sum_list_with (λ o, length (sub o)) (objects a).
Proof.
  eexists. split; [reflexivity|].
  apply (entries_counted_once sample_loads
           [record_line "data1" "d" "0"; record_line "data2" "d" "0";
            record_line "data1/f" "f" "7"] false).
  reflexivity.
Defined.

(** ** Malformed records *)

(** X6: the order in which a record is rejected.  A decoded value that is
    not a dict raises [TypeError]; a dict without path raises [KeyError] on
    path; with a path but no type it raises [KeyError] on type, also when
    the path is "."; with both, a path other than "." and no size it raises
    [KeyError] on size, directory or not; and with all three fields, a path
    that is not a string raises [TypeError]. *)
Theorem malformed_record_errors (a : BorgAnalyzer) :
  (∀ record, (∀ d, record ≠ JObj d) → process_record record a = raise TypeError)
  ∧ (∀ d, dict_get "path" d = None →
       process_record (JObj d) a = raise (KeyError "path"))
  ∧ (∀ d path, dict_get "path" d = Some path → dict_get "type" d = None →
       process_record (JObj d) a = raise (KeyError "type"))
  ∧ (∀ d path ty, dict_get "path" d = Some path → dict_get "type" d = Some ty →
       eq_str path "." = false → dict_get "size" d = None →
       process_record (JObj d) a = raise (KeyError "size"))
  ∧ (∀ d path ty sz, dict_get "path" d = Some path → dict_get "type" d = Some ty →
       dict_get "size" d = Some sz → (∀ s, path ≠ JStr s) →
       process_record (JObj d) a = raise TypeError).
Proof.
  split; [|split; [|split; [|split]]].
  - intros record Hnot. unfold process_record.
    destruct record; try done. by destruct (Hnot l).
  - intros d Hp. unfold process_record, getitem. by rewrite Hp.
  - intros d path Hp Ht. unfold process_record, getitem. by rewrite Hp, Ht.
  - intros d path ty Hp Ht Hdot Hs. unfold process_record, getitem.
    rewrite Hp, Ht, Hs. cbn [bind ok]. by rewrite Hdot.
  - intros d path ty sz Hp Ht Hs Hnot. unfold process_record, getitem.
    rewrite Hp, Ht, Hs. cbn [bind ok].
    destruct path; try done. by destruct (Hnot s).
Qed.

Lemma malformed_record_errors_witness :
  process_record (JArr []) (init true) = raise TypeError
  ∧ process_record (JObj [("type", JStr "d")]) (init true) = raise (KeyError "path")
  ∧ process_record (JObj [("path", JStr ".")]) (init true) = raise (KeyError "type")
  ∧ process_record (JObj [("path", JStr "a"); ("type", JStr "d")]) (init true)
    = raise (KeyError "size")
  ∧ process_record (JObj [("path", JNum 1); ("type", JStr "d"); ("size", JNum 0)])
      (init true)
    = raise TypeError.
Proof.
  destruct (malformed_record_errors (init true)) as (H1 & H2 & H3 & H4 & H5).
  split; [by apply H1|]. split; [by apply H2|].
  split; [by apply (H3 _ (JStr "."))|].
  split; [by apply (H4 _ (JStr "a") (JStr "d"))|].
  by apply (H5 _ (JNum 1) (JStr "d") (JNum 0)).
Defined.

(** ** The whole pipeline *)

(** X7: when the builder fails [analyze] fails with the builder's
    exception.  When every line is processed, [analyze] returns the document
    exactly when every root's subtree is no deeper than the recursion depth
    the interpreter allows, and raises [RecursionError] otherwise; a depth
    that reaches the number of entries is always enough. *)
Theorem analyze_outcome json_loads limit lines fp :
  match process_lines json_loads lines (init fp) with
  | inl (e, _) => analyze json_loads limit lines fp = raise e
  | inr a =>
      ((∀ r, r ∈ _root_objects a → fits (objects a) limit r) →
         ∃ rs, Forall2 (λ r j, entry_to_ncdu limit (objects a) r = ok j)
                 (_root_objects a) rs
             ∧ analyze json_loads limit lines fp
               = ok (JArr [JNum 1; JNum 1; JObj [];
                           JArr (JObj [("name", JStr "/")] :: rs)]))
      ∧ (¬ (∀ r, r ∈ _root_objects a → fits (objects a) limit r) →
           analyze json_loads limit lines fp = raise RecursionError)
      ∧ (length (objects a) ≤ limit →
           ∀ r, r ∈ _root_objects a → fits (objects a) limit r)
  end.
Proof.
  unfold analyze.
  destruct (process_lines json_loads lines (init fp)) as [[e rest]|a] eqn:Hrun;
    [done|].
  split; [|split].
  - intros Hroots.
    destruct (serialize_all (objects a) limit (_root_objects a) Hroots) as [rs Hrs].
    exists rs. split; [by apply comprehension_Forall2|].
    unfold generate_ncdu_tree. by rewrite Hrs.
  - intros Hdeep. unfold generate_ncdu_tree.
    destruct (comprehension (entry_to_ncdu limit (objects a)) (_root_objects a))
      as [x|rs] eqn:Hc.
    + apply comprehension_raises in Hc as (r & _ & Hr).
      by apply entry_to_ncdu_raises in Hr as ->.
    + destruct Hdeep. intros r Hr. apply comprehension_Forall2 in Hc.
      destruct (proj1 (list_elem_of_lookup _ _) Hr) as [i Hi].
      destruct (Forall2_lookup_l _ _ _ _ _ Hc Hi) as (v & _ & Hv).
      by eapply entry_to_ncdu_ok_fits.
  - intros Hlimit r Hr. apply process_lines_post in Hrun as [_ Hok].
    destruct (Hok (store_ok_init fp)) as [_ _ _ Hb Hf].
    apply forest_fits; [done| |lia].
    apply Hb. unfold attachments. apply elem_of_app. by left.
Qed.

Lemma analyze_outcome_witness :
  analyze sample_loads 2
    [record_line "x/y" "d" "0"; record_line "x/y/z.txt" "f" "5"] true
  = raise RecursionError
  ∧ ∃ rs, analyze sample_loads 3
            [record_line "x/y" "d" "0"; record_line "x/y/z.txt" "f" "5"] true
          = ok (JArr [JNum 1; JNum 1; JObj [];
                      JArr (JObj [("name", JStr "/")] :: rs)]).
Proof.
  split.
  - pose proof (analyze_outcome sample_loads 2
                  [record_line "x/y" "d" "0"; record_line "x/y/z.txt" "f" "5"]
                  true) as H.
    vm_compute process_lines in H. destruct H as (_ & Hdeep & _).
    apply Hdeep. intros Hall.
    assert (fits [ {| name := "x"; size := JNum 0; sub := [1] |};
                   {| name := "y"; size := JNum 0; sub := [2] |};
                   {| name := "z.txt"; size := JNum 5; sub := [] |} ] 2 0) as Hfit
      by (apply Hall; by left).
    inversion Hfit as [? ? o Ho Hkids]; subst. injection Ho as <-.
    assert (fits [ {| name := "x"; size := JNum 0; sub := [1] |};
                   {| name := "y"; size := JNum 0; sub := [2] |};
                   {| name := "z.txt"; size := JNum 5; sub := [] |} ] 1 1) as Hfit1
      by (apply Hkids; by left).
    inversion Hfit1 as [? ? o1 Ho1 Hkids1]; subst. injection Ho1 as <-.
    assert (fits [ {| name := "x"; size := JNum 0; sub := [1] |};
                   {| name := "y"; size := JNum 0; sub := [2] |};
                   {| name := "z.txt"; size := JNum 5; sub := [] |} ] 0 2) as Hfit2
      by (apply Hkids1; by left).
    inversion Hfit2.
  - pose proof (analyze_outcome sample_loads 3
                  [record_line "x/y" "d" "0"; record_line "x/y/z.txt" "f" "5"]
                  true) as H.
    vm_compute process_lines in H. destruct H as (Hdoc & _ & Hfits).
    destruct Hdoc as (rs & _ & Hrs); [apply Hfits; simpl; lia|].
    by exists rs.
Defined.

(** X8: a stream can be cut anywhere: processing [l1 ++ l2] is processing
    [l2] from the state [l1] leaves; when [l1] fails, so does the whole, with
    the same exception and all of [l2] still unconsumed. *)
Theorem process_lines_streaming json_loads l1 l2 a :
  (∀ b, process_lines json_loads l1 a = inr b →
     process_lines json_loads (l1 ++ l2) a = process_lines json_loads l2 b)
  ∧ (∀ e rest, process_lines json_loads l1 a = inl (e, rest) →
       process_lines json_loads (l1 ++ l2) a = inl (e, rest ++ l2)).
Proof.
  rewrite process_lines_app. split.
  - by intros b ->.
  - by intros e rest ->.
Qed.

Lemma process_lines_streaming_witness :
  process_lines sample_loads
    ([record_line "a" "d" "0"] ++ [record_line "a/b" "d" "0"]) (init true)
  = process_lines sample_loads [record_line "a/b" "d" "0"] sample_indexed
  ∧ process_lines sample_loads
      ([record_line "x/y/z.txt" "f" "5"] ++ [record_line "a" "d" "0"]) (init true)
    = inl (KeyError "x/y", [] ++ [record_line "a" "d" "0"]).
Proof.
  split.
  - apply (process_lines_streaming sample_loads). reflexivity.
  - apply (process_lines_streaming sample_loads). reflexivity.
Defined.

(** ** Where synthesis attaches what it creates *)

Lemma child_of_extends a a' p e : extends a a' → child_of a p e → child_of a' p e.
Proof.
  intros (_ & _ & Hobj) (o & Ho & He).
  destruct (Hobj p o Ho) as (o' & Ho' & _ & _ & more & Hmore).
  exists o'. split; [done|]. rewrite Hmore. apply elem_of_app. by left.
Qed.

Lemma full_path_step_attach a parent part :
  store_ok a →
  parent = "" ∨ is_Some (_fs_cache a !! parent) →
  _fs_cache a !! part = None →
  ∃ a', full_path_step a (parent, part) = ok a'
      ∧ _fs_cache a' !! part = Some (length (objects a))
      ∧ if String.eqb parent ""
        then length (objects a) ∈ _root_objects a'
        else ∃ q, _fs_cache a' !! parent = Some q
                ∧ child_of a' q (length (objects a)).
Proof.
  intros Hok Hparent Hpart. unfold full_path_step. rewrite Hpart.
  cbn [alloc fst snd]. destruct (String.eqb_spec parent "") as [->|Hne].
  - eexists. split; [done|]. simpl. split; [by rewrite lookup_insert_eq|].
    apply elem_of_app. right. by left.
  - destruct Hparent as [?|[q Hq]]; [done|].
    assert (parent ≠ part) as Hpp by congruence.
    unfold cache_get. simpl. rewrite lookup_insert_ne by done. rewrite Hq.
    simpl. eexists. split; [done|]. simpl.
    split; [by rewrite lookup_insert_eq|].
    exists q. split; [by rewrite lookup_insert_ne|].
    pose proof (ok_cache a Hok _ _ Hq) as Hlt.
    destruct (lookup_lt_is_Some_2 (objects a) q Hlt) as [o Ho].
    exists (push_sub (length (objects a)) o). simpl. split.
    + by rewrite list_lookup_alter_eq, (lookup_app_l_Some _ _ _ _ Ho).
    + simpl. apply elem_of_app. right. by left.
Qed.

Lemma synth_fold_attach (p : list string) n : ∀ s a a',
  s + n ≤ length p →
  s = 0 ∨ is_Some (_fs_cache a !! join (take s p)) →
  store_ok a →
  for_each full_path_step
    ((λ i, (join (take i p), join (take (i + 1) p))) <$> seq s n) a = ok a' →
  ∀ i, s ≤ i < s + n → _fs_cache a !! join (take (i + 1) p) = None →
    ∃ e, _fs_cache a' !! join (take (i + 1) p) = Some e
       ∧ length (objects a) ≤ e
       ∧ if String.eqb (join (take i p)) ""
         then e ∈ _root_objects a'
         else ∃ q, _fs_cache a' !! join (take i p) = Some q ∧ child_of a' q e.
Proof.
  induction n as [|n IH]; intros s a a' Hlen Hs Hok Hrun i Hi Hmiss; [lia|].
  cbn [seq fmap list_fmap for_each] in Hrun.
  destruct (full_path_step_post a (join (take s p)) (join (take (s + 1) p)))
    as (a1 & Hstep & Hpost1).
  { destruct Hs as [->|Hs]; [by left|by right]. }
  rewrite Hstep in Hrun. cbn [bind ok] in Hrun.
  assert (S s = 0 ∨ is_Some (_fs_cache a1 !! join (take (S s) p))) as Hs1.
  { right. destruct Hpost1 as (_ & _ & _ & Hd & _). apply Hd. right.
    rewrite Nat.add_1_r. by left. }
  destruct (synth_fold p n (S s) a1) as (a2 & Hrun2 & Hpost2); [lia|done|].
  rewrite Hrun2 in Hrun. injection Hrun as ->.
  destruct Hpost1 as (He1 & Hs1' & Hp1 & Hd1 & _ & _ & Hl1).
  destruct Hpost2 as (He2 & _ & Hp2 & _).
  destruct (decide (i = s)) as [->|Hne].
  - destruct (full_path_step_attach a (join (take s p)) (join (take (s + 1) p)))
      as (b & Hb & Hpart & Hatt); [done| |done|].
    { destruct Hs as [->|Hs]; [by left|by right]. }
    rewrite Hstep in Hb. injection Hb as <-.
    exists (length (objects a)). split; [by apply Hp2|]. split; [done|].
    destruct (String.eqb (join (take s p)) "").
    + destruct He2 as (_ & [tail ->] & _). apply elem_of_app. by left.
    + destruct Hatt as (q & Hq & Hchild). exists q.
      split; [by apply Hp2|by eapply child_of_extends].
  - destruct (IH (S s) a1 a' ltac:(lia) Hs1 (Hs1' Hok) Hrun2 i ltac:(lia))
      as (e & He & Hge & Hatt).
    + apply eq_None_not_Some. rewrite Hd1. intros [Hsome|Hin].
      * rewrite Hmiss in Hsome. by destruct Hsome.
      * apply list_elem_of_singleton in Hin.
        by apply (join_take_ne p s i); [lia|lia|].
    + exists e. split; [done|]. split; [lia|done].
Qed.

(** X9: in full-path synthesis every prefix that was missing from the index
    ends up indexed on a fresh entry, and that entry hangs where the path
    says: in the root list when its parent prefix is empty, otherwise among
    the children of the entry indexed for its parent prefix. *)
Theorem synthesis_attaches_prefixes a path a' :
  store_ok a →
  _process_new_dir_full_path path a = ok a' →
  ∀ parent part, (parent, part) ∈ iterate_path_parts path →
    _fs_cache a !! part = None →
    ∃ e, _fs_cache a' !! part = Some e
       ∧ length (objects a) ≤ e
       ∧ if String.eqb parent ""
         then e ∈ _root_objects a'
         else ∃ q, _fs_cache a' !! parent = Some q ∧ child_of a' q e.
Proof.
  intros Hok Hrun parent part Hin Hmiss.
  apply list_elem_of_lookup in Hin as [i Hi].
  apply iterate_path_parts_lookup in Hi as [[= -> ->] Hlt].
  apply (synth_fold_attach (split path) (length (split path)) 0 a a');
    [lia|by left|done|done|lia|done].
Qed.

Lemma synthesis_attaches_prefixes_witness :
  ∃ a', _process_new_dir_full_path "a/b" sample_indexed = ok a'
      ∧ ∃ e, _fs_cache a' !! "a/b" = Some e
           ∧ length (objects sample_indexed) ≤ e
           ∧ if String.eqb "a" ""
             then e ∈ _root_objects a'
             else ∃ q, _fs_cache a' !! "a" = Some q ∧ child_of a' q e.
Proof.
  eexists. split; [reflexivity|].
  eapply (synthesis_attaches_prefixes sample_indexed "a/b" _ _ _ "a" "a/b").
  Unshelve.
  - right. left.
  - reflexivity.
  - apply (process_record_post (mk_record "a" "d" 0) (init true));
      [reflexivity|apply store_ok_init].
  - reflexivity.
Defined.

(** ** The two modes on a top-level path *)

Lemma no_slash_split s : no_slash s = true → split s = [s].
Proof.
  induction s as [|c s IH]; [done|]. simpl.
  destruct (is_slash c); [done|]. simpl. intros Hs. by rewrite IH.
Qed.

Lemma no_slash_rfind1 s : no_slash s = true → rfind1 s = 0.
Proof.
  induction s as [|c s IH]; [done|]. simpl.
  destruct (is_slash c); [done|]. simpl. intros Hs. by rewrite IH.
Qed.

(** X10: on a path without a slash the two modes differ only when the path
    is already indexed: if it is not, full-path synthesis and per-dataset
    creation build the same state; if it is, full-path mode changes nothing
    while per-dataset mode adds one more entry. *)
Theorem modes_agree_on_top_level a path :
  no_slash path = true →
  (_fs_cache a !! path = None →
     _process_new_dir_full_path path a = _process_new_dir_dataset path a)
  ∧ (is_Some (_fs_cache a !! path) →
       _process_new_dir_full_path path a = ok a
       ∧ ∃ a', _process_new_dir_dataset path a = ok a'
             ∧ length (objects a') = S (length (objects a))).
Proof.
  intros Hpath.
  assert (iterate_path_parts path = [("", path)]) as Hparts.
  { unfold iterate_path_parts. by rewrite (no_slash_split _ Hpath). }
  unfold _process_new_dir_full_path, _process_new_dir_dataset.
  rewrite Hparts. cbn [for_each full_path_step]. split.
  - intros ->. done.
  - intros [e ->]. split; [done|]. eexists. split; [done|].
    simpl. rewrite length_app. simpl. lia.
Qed.

Lemma modes_agree_on_top_level_witness :
  (_fs_cache (init true) !! "data1" = None →
     _process_new_dir_full_path "data1" (init true)
     = _process_new_dir_dataset "data1" (init true))
  ∧ (is_Some (_fs_cache sample_indexed !! "a") →
       _process_new_dir_full_path "a" sample_indexed = ok sample_indexed
       ∧ ∃ a', _process_new_dir_dataset "a" sample_indexed = ok a'
             ∧ length (objects a') = S (length (objects sample_indexed))).
Proof.
  split.
  - apply (modes_agree_on_top_level (init true) "data1"). reflexivity.
  - apply (modes_agree_on_top_level sample_indexed "a"). reflexivity.
Defined.

(** ** A flat listing *)

Lemma no_slash_basename s : no_slash s = true → basename s = s.
Proof.
  intros Hs. unfold basename. rewrite (no_slash_rfind1 _ Hs). by destruct s.
Qed.

Lemma no_slash_dirname s : no_slash s = true → dirname s = "".
Proof.
  intros Hs. unfold dirname. rewrite (no_slash_rfind1 _ Hs). by destruct s.
Qed.

Lemma top_level_file_record a (f : string * json) record :
  file_record_of f record → no_slash f.1 = true → f.1 ≠ "." →
  process_record record a
  = ok (root_append (length (objects a))
          (cache_set f.1 (length (objects a)) (alloc (file_entry f) a).2)).
Proof.
  intros (Hpath & (ty & Hty & Hfile) & Hsz) Hs Hdot. unfold process_record.
  rewrite Hpath, Hty, Hsz. cbn [bind ok]. rewrite (eq_str_ne _ _ Hdot), Hfile.
  cbn [as_str bind ok]. rewrite (no_slash_dirname _ Hs). cbn [String.eqb].
  unfold from_filename, file_entry. by rewrite (no_slash_basename _ Hs).
Qed.

Lemma flat_run json_loads (files : list (string * json)) : ∀ lines a,
  Forall2 (λ line f, ∃ record, json_loads line = Some record
                               ∧ file_record_of f record) lines files →
  Forall (λ f, no_slash f.1 = true ∧ f.1 ≠ ".") files →
  ∃ a', process_lines json_loads lines a = inr a'
      ∧ objects a' = objects a ++ (file_entry <$> files)
      ∧ _root_objects a'
        = _root_objects a ++ seq (length (objects a)) (length files).
Proof.
  induction files as [|f files IH]; intros lines a Hlines Hfiles.
  - apply Forall2_nil_inv_r in Hlines as ->. exists a.
    simpl. by rewrite !app_nil_r.
  - apply Forall2_cons_inv_r in Hlines
      as (line & rest & (record & Hline & Hrec) & Hrest & ->).
    apply Forall_cons in Hfiles as [[Hs Hdot] Hfiles].
    cbn [process_lines].
    rewrite Hline, (top_level_file_record a f record Hrec Hs Hdot).
    unfold ok.
    destruct (IH rest (root_append (length (objects a))
                         (cache_set f.1 (length (objects a))
                            (alloc (file_entry f) a).2)) Hrest Hfiles)
      as (a' & Hrun & Hobj & Hroots).
    exists a'. split; [done|]. rewrite Hobj, Hroots. simpl.
    rewrite length_app, <- !app_assoc. simpl.
    by rewrite Nat.add_1_r.
Qed.

Lemma serialize_leaves objs depth (files : list (string * json)) : ∀ s,
  (∀ i f, files !! i = Some f → objs !! (s + i) = Some (file_entry f)) →
  comprehension (entry_to_ncdu (S depth) objs) (seq s (length files))
  = ok (file_node <$> files).
Proof.
  induction files as [|f files IH]; intros s Hobjs; [done|].
  cbn [length seq comprehension entry_to_ncdu].
  rewrite <- (Nat.add_0_r s) at 1. rewrite (Hobjs 0 f) by done.
  cbn [file_entry sub name size bind ok].
  rewrite IH; [done|]. intros i g Hg.
  replace (S s + i) with (s + S i) by lia. by apply Hobjs.
Qed.

(** X11: a listing of top-level files (records whose type is anything but
    'd', whose path has no slash and is not ".", whatever other keys they
    hold) is serialized, in either mode and as soon as one call of
    [entry_to_ncdu] is allowed, as the root node followed by one leaf per
    file, in input order, each with its declared size. *)
Theorem flat_listing json_loads limit (files : list (string * json)) lines fp :
  1 ≤ limit →
  Forall2 (λ line f, ∃ record, json_loads line = Some record
                               ∧ file_record_of f record) lines files →
  Forall (λ f, no_slash f.1 = true ∧ f.1 ≠ ".") files →
  analyze json_loads limit lines fp
  = ok (JArr [JNum 1; JNum 1; JObj [];
              JArr (JObj [("name", JStr "/")] :: (file_node <$> files))]).
Proof.
  intros Hlimit Hlines Hfiles.
  destruct (flat_run json_loads files lines (init fp) Hlines Hfiles)
    as (a & Hrun & Hobj & Hroots).
  unfold analyze. rewrite Hrun. unfold generate_ncdu_tree.
  simpl in Hobj, Hroots. rewrite Hroots, Hobj.
  destruct limit as [|depth]; [lia|].
  rewrite (serialize_leaves _ depth files 0); [done|].
  intros i g Hg. change (0 + i) with i. by rewrite list_lookup_fmap, Hg.
Qed.

Lemma flat_listing_witness :
  analyze (λ _, Some (JObj [("size", JNum 42); ("path", JStr "a.txt");
                            ("mode", JStr "-rw-r--r--"); ("type", JStr "-")]))
    sample_limit ["first"; "second"] false
  = ok (JArr [JNum 1; JNum 1; JObj [];
              JArr (JObj [("name", JStr "/")]
                    :: (file_node <$> [("a.txt", JNum 42); ("a.txt", JNum 42)]))]).
Proof.
  apply flat_listing; [unfold sample_limit; lia| |].
  - repeat constructor; eexists; (split; [reflexivity|]);
      (split; [reflexivity|]); (split; [|reflexivity]);
      exists (JStr "-"); by split.
  - repeat constructor; done.
Defined.

(** ** The line reader *)

(** X12: [read_lines_from_process] yields a prefix of what [readline]
    returned, never an empty line, and it yields exactly the lines read
    before the first empty read: nothing before the end of the stream is
    dropped and nothing after it is read. *)
Theorem read_lines_until_eof :
  (∀ reads, read_lines_from_process reads `prefix_of` reads
            ∧ Forall (λ line, line ≠ "") (read_lines_from_process reads))
  ∧ (∀ lines more, Forall (λ line, line ≠ "") lines →
       read_lines_from_process (lines ++ "" :: more) = lines
       ∧ read_lines_from_process lines = lines).
Proof.
  split.
  - induction reads as [|line reads [IHp IHf]]; [split; [done|constructor]|].
    simpl. destruct (String.eqb_spec line "") as [->|Hne].
    + split; [apply prefix_nil|constructor].
    + split; [by apply prefix_cons|by constructor].
  - intros lines more Hlines. induction Hlines as [|line lines Hne _ [IH1 IH2]].
    + done.
    + simpl. apply String.eqb_neq in Hne. rewrite Hne. by rewrite IH1, IH2.
Qed.

Lemma read_lines_until_eof_witness :
  read_lines_from_process ([record_line "a" "d" "0"] ++ "" :: ["late"])
  = [record_line "a" "d" "0"]
  ∧ read_lines_from_process [record_line "a" "d" "0"] = [record_line "a" "d" "0"].
Proof.
  apply (proj2 read_lines_until_eof). repeat constructor. done.
Defined.

(** ** How much one record can add *)

(** X13: a record adds at most as many entries as its path has
    slash-separated components, and never removes one. *)
Theorem record_growth_bound record a a' path :
  getitem record "path" = ok (JStr path) →
  process_record record a = ok a' →
  length (objects a) ≤ length (objects a')
  ∧ length (objects a') ≤ length (objects a) + length (split path).
Proof.
  intros Hpath. unfold process_record. rewrite Hpath. cbn [bind ok]. intros H.
  assert (1 ≤ length (split path)) as Hone.
  { pose proof (split_not_nil path). destruct (split path); [done|]. simpl. lia. }
  apply bind_ok in H as (ty & _ & H).
  destruct (eq_str (JStr path) "."); [injection H as <-; lia|].
  apply bind_ok in H as (sz & _ & H). cbn [as_str bind ok] in H.
  destruct (eq_str ty "d").
  - destruct (_fs_cache a !! dirname path).
    + injection H as <-. simpl. rewrite length_alter, length_app. simpl. lia.
    + unfold _process_new_dir in H. destruct (full_path a).
      * destruct (full_path_synthesis a path)
          as (b & Hrun & _ & _ & _ & _ & _ & _ & Hl).
        rewrite Hrun in H. injection H as <-. rewrite Hl.
        pose proof (length_filter (λ k, _fs_cache a !! k = None)
                      (path_prefixes path)) as Hf.
        unfold path_prefixes in Hf at 2.
        rewrite length_fmap, iterate_path_parts_length in Hf. lia.
      * injection H as <-. simpl. rewrite length_app. simpl. lia.
  - destruct (String.eqb (dirname path) "").
    + injection H as <-. simpl. rewrite length_app. simpl. lia.
    + apply bind_ok in H as (parent & _ & H). injection H as <-. simpl.
      rewrite length_alter, length_app. simpl. lia.
Qed.

Lemma record_growth_bound_witness :
  ∃ a', process_record (mk_record "a/b/c" "d" 0) sample_indexed = ok a'
      ∧ length (objects sample_indexed) ≤ length (objects a')
      ∧ length (objects a') ≤ length (objects sample_indexed) + length (split "a/b/c").
Proof.
  eexists. split; [reflexivity|].
  apply (record_growth_bound (mk_record "a/b/c" "d" 0) sample_indexed _ "a/b/c");
    reflexivity.
Defined.

(** ** The first failure ends the run *)

(** X14: whatever exception a record raises, the run ends there with that
    exception and the lines after it are left unconsumed. *)
Theorem first_failure_ends_run json_loads before line after a b record e :
  process_lines json_loads before a = inr b →
  json_loads line = Some record →
  process_record record b = raise e →
  process_lines json_loads (before ++ line :: after) a = inl (e, after).
Proof.
  intros Hbefore Hline Hrec. rewrite process_lines_app, Hbefore.
  cbn [process_lines]. by rewrite Hline, Hrec.
Qed.

Lemma first_failure_ends_run_witness :
  process_lines sample_loads
    ([record_line "a" "d" "0"] ++ record_line "x/y/z.txt" "f" "5"
       :: [record_line "a/b" "d" "0"]) (init true)
  = inl (KeyError "x/y", [record_line "a/b" "d" "0"]).
Proof.
  apply (first_failure_ends_run sample_loads [record_line "a" "d" "0"]
           (record_line "x/y/z.txt" "f" "5") [record_line "a/b" "d" "0"]
           (init true) sample_indexed (mk_record "x/y/z.txt" "f" 5));
    reflexivity.
Defined.

(** ** Files after their directory *)

Lemma directory_record_indexed record a a' path sz :
  getitem record "path" = ok (JStr path) → path ≠ "." →
  getitem record "type" = ok (JStr "d") →
  getitem record "size" = ok sz →
  process_record record a = ok a' →
  is_Some (_fs_cache a' !! path).
Proof.
  intros Hpath Hdot Hty Hsz. unfold process_record.
  rewrite Hpath, Hty, Hsz. cbn [bind ok]. rewrite (eq_str_ne _ _ Hdot).
  cbn [as_str bind ok eq_str]. rewrite String.eqb_refl.
  destruct (_fs_cache a !! dirname path).
  - intros [= <-]. simpl. by rewrite lookup_insert_eq.
  - unfold _process_new_dir. destruct (full_path a).
    + destruct (full_path_synthesis a path) as (b & Hrun & _ & _ & _ & Hd & _).
      rewrite Hrun. intros [= <-]. apply Hd. right. apply path_in_prefixes.
    + intros [= <-]. simpl. by rewrite lookup_insert_eq.
Qed.

(** X15: once a directory record has been processed, in either mode, its
    path stays indexed, so a file record whose parent_dir is that path is
    accepted however many lines were processed in between. *)
Theorem file_after_directory json_loads a a1 a2 lines
    dir_record dir_path dir_size file_record file_path file_type file_size :
  getitem dir_record "path" = ok (JStr dir_path) → dir_path ≠ "." →
  getitem dir_record "type" = ok (JStr "d") →
  getitem dir_record "size" = ok dir_size →
  process_record dir_record a = ok a1 →
  process_lines json_loads lines a1 = inr a2 →
  getitem file_record "path" = ok (JStr file_path) →
  getitem file_record "type" = ok file_type → eq_str file_type "d" = false →
  getitem file_record "size" = ok file_size →
  dirname file_path = dir_path →
  is_Some (_fs_cache a2 !! dir_path)
  ∧ ∃ a3, process_record file_record a2 = ok a3.
Proof.
  intros Hdp Hdot Hdt Hds Hdir Hlines Hfp Hft Hfile Hfs Hparent.
  assert (is_Some (_fs_cache a2 !! dir_path)) as [p Hp].
  { apply (retains_keys (announced json_loads lines) a1 a2);
      [by apply process_lines_retains|].
    by eapply directory_record_indexed. }
  split; [by exists p|].
  unfold process_record. rewrite Hfp, Hft, Hfs. cbn [bind ok].
  destruct (eq_str (JStr file_path) "."); [by eexists|].
  rewrite Hfile. cbn [as_str bind ok]. rewrite Hparent.
  destruct (String.eqb dir_path ""); [by eexists|].
  unfold cache_get. rewrite Hp. by eexists.
Qed.

Lemma file_after_directory_witness :
  ∃ a2, process_lines sample_loads [record_line "a/b" "d" "0"] sample_indexed
        = inr a2
      ∧ is_Some (_fs_cache a2 !! "a")
      ∧ ∃ a3, process_record (mk_record "a/f" "f" 7) a2 = ok a3.
Proof.
  eexists. split; [reflexivity|].
  apply (file_after_directory sample_loads (init true) sample_indexed _
           [record_line "a/b" "d" "0"] (mk_record "a" "d" 0) "a" (JNum 0)
           (mk_record "a/f" "f" 7) "a/f" (JStr "f") (JNum 7));
    done.
Defined.

Lemma iterate_path_parts_chain_witness :
  length (iterate_path_parts "x/y/z.txt") = length (split "x/y/z.txt")
  ∧ (∃ parent, last (iterate_path_parts "x/y/z.txt") = Some (parent, "x/y/z.txt"))
  ∧ NoDup (path_prefixes "x/y/z.txt").
Proof.
  destruct (iterate_path_parts_chain "x/y/z.txt") as (Hlen & _ & _ & Hlast & Hnd).
  split; [exact Hlen|]. split; [exact Hlast|exact Hnd].
Defined.
